(** * hmap: a sharded, string-keyed map (Go package [hmap])

    A shallow embedding of [src/hmap.go] and a verification of its
    sequential behaviour.  Every method of [*Map[V]] is a computation in a
    small state-and-panic monad over the heap object the receiver points
    to; the per-shard [sync.RWMutex] has no sequential content and is
    left out, as is the padding of [mapItem]. *)

From Stdlib Require Import ZArith Lia.
From stdpp Require Import base option list sorting gmap fin_maps strings.

Local Open Scope Z_scope.

(** ** Machine integers *)

Module Int.

(** Go's [int] and [uint64] on a 64-bit target, as [Z] with the
    wrap-around written out. *)
Definition modulus : Z := 2 ^ 64.
Definition half_modulus : Z := 2 ^ 63.

(** Conversion to [uint64]. *)
Definition to_uint64 (z : Z) : Z := z mod modulus.

(** Conversion to (and arithmetic in) the signed type [int]. *)
Definition to_int (z : Z) : Z :=
  (z + half_modulus) mod modulus - half_modulus.

Definition in_int (z : Z) : Prop := - half_modulus <= z < half_modulus.

End Int.

(** ** The package *)

Module Hmap.

(** *** Shard-count rounding: [trueShards] *)

Definition maxShards : Z := Z.shiftl 1 16.

(** [n |= n >> k] *)
Definition or_shr (n k : Z) : Z := Z.lor n (Z.shiftr n k).

(** The five smearing steps of [trueShards]. *)
Definition smear (n : Z) : Z :=
let n := or_shr n 1 in
let n := or_shr n 2 in
let n := or_shr n 4 in
let n := or_shr n 8 in
let n := or_shr n 16 in
n.

Definition trueShards (shardCount : Z) : Z :=
if shardCount <? 1 then 1
else if shardCount >? maxShards then maxShards
else
  let n := Int.to_int (shardCount - 1) in
  let n := smear n in
  Int.to_int (n + 1).

(** What the specification asks of the shard count: the smallest power of
  two that is at least the request, clamped to [[1, 65536]]. *)
Definition spec_shard_count (request : Z) : Z :=
Z.max 1 (Z.min 65536 (2 ^ Z.log2_up request)).


(** [filled n top w]: no bit of [n] above [top] is set, and the [w] bits
  ending at [top] are all set (the loop invariant of the smearing). *)
Definition filled (n top w : Z) : Prop :=
(forall i, top < i -> Z.testbit n i = false) /\
(forall i, 0 <= i -> top - w < i <= top -> Z.testbit n i = true).

Definition defaultShardCount : Z := Z.shiftl 1 6.

Section HMap.

(** The value type parameter [V] with its zero value, the state a
    caller's closures may capture, and the type of non-nil [error]s. *)
Context {V St Err : Type}.
Variable zeroV : V.

(** [hash/maphash]: seeds, and [maphash.String], whose result type is
    [uint64]. *)
Context {Seed : Type}.
Variable maphash_String : Seed -> string -> Z.

(** Go leaves the order of [for ... range] over a map unspecified.
    [iter_order i d] is the order in which the runtime yields the
    entries of the dictionary [d] when shard [i] is traversed: any
    enumeration without repetition. *)
Variable iter_order : Z -> gmap string V -> list (string * V).
Hypothesis iter_order_perm : forall i d, iter_order i d ≡ₚ map_to_list d.

(** *** Data *)

Record mapItem := MapItem { data : gmap string V }.

Record Map := MkMap { datas : list mapItem; seed : Seed }.

(** The heap object behind a [*Map[V]], together with whatever else the
    caller's closures can reach. *)
Record World := MkWorld { hmap : Map; caller : St }.

(** *** Computations: state passing, [None] is a run-time panic *)

Definition M (A : Type) : Type := World -> option (A * World).

Definition ret {A} (a : A) : M A := fun w => Some (a, w).

Definition bind {A B} (c : M A) (k : A -> M B) : M B :=
  fun w => match c w with
           | Some (a, w') => k a w'
           | None => None
           end.

Definition panic {A} : M A := fun _ => None.

Notation "x <- c ;; k" := (bind c (fun x => k))
  (at level 20, c at level 99, k at level 200, only parsing).
Notation "' p <- c ;; k" := (bind c (fun x => let 'p := x in k))
  (at level 20, p pattern, c at level 99, k at level 200, only parsing).

(** Dereference the receiver. *)
Definition get_map : M Map := fun w => Some (hmap w, w).

(** [m.datas[index]]: indexing a slice panics out of range. *)
Definition shard (index : Z) : M mapItem :=
  fun w =>
    if index <? 0 then None
    else match datas (hmap w) !! Z.to_nat index with
         | Some it => Some (it, w)
         | None => None
         end.

(** Replace the dictionary held by [m.datas[index]]. *)
Definition put_data (index : Z) (d : gmap string V) : M unit :=
  fun w =>
    if index <? 0 then None
    else match datas (hmap w) !! Z.to_nat index with
         | Some _ =>
             let m := hmap w in
             Some (tt, MkWorld
                         (MkMap (<[Z.to_nat index := MapItem d]> (datas m))
                                (seed m))
                         (caller w))
         | None => None
         end.

(** Run a closure that only reaches the caller's own state. *)
Definition call {A} (f : St -> A * St) : M A :=
  fun w => let '(a, s) := f (caller w) in Some (a, MkWorld (hmap w) s).

(** [v, ok := d[key]] on a dictionary. *)
Definition comma_ok (d : gmap string V) (key : string) : V * bool :=
  match d !! key with
  | Some v => (v, true)
  | None => (zeroV, false)
  end.

(** [m.datas[index].data[key]] *)
Definition load (index : Z) (key : string) : M (V * bool) :=
  it <- shard index ;;
  ret (comma_ok (data it) key).

(** [m.datas[index].data[key] = value] *)
Definition store (index : Z) (key : string) (value : V) : M unit :=
  it <- shard index ;;
  put_data index (<[key := value]> (data it)).

(** [delete(m.datas[index].data, key)] *)
Definition remove (index : Z) (key : string) : M unit :=
  it <- shard index ;;
  put_data index (delete key (data it)).

(** [for i := range m.datas]: the indices [0 .. len-1]. *)
Definition indices (n : nat) : list Z := Z.of_nat <$> seq 0 n.

(** *** Construction *)

(** [New(inShardCount ...int)]; the seed drawn by [maphash.MakeSeed] is
    an argument. *)
Definition New (inShardCount : list Z) (seed0 : Seed) : Map :=
  let shardCount :=
    match inShardCount with
    | [] => defaultShardCount
    | hint :: _ => trueShards hint
    end in
  MkMap (replicate (Z.to_nat shardCount) (MapItem ∅)) seed0.

(** *** Index computation *)

Definition index_of (m : Map) (key : string) : Z :=
  let hash := Int.to_uint64 (maphash_String (seed m) key) in
  let len := Z.of_nat (length (datas m)) in
  Int.to_int (Z.land hash (Int.to_uint64 (Int.to_int (len - 1)))).

Definition getIndex (key : string) : M Z :=
  m <- get_map ;;
  ret (index_of m key).

(** *** Point operations *)

Definition Set_ (key : string) (value : V) : M unit :=
  index <- getIndex key ;;
  store index key value.

Definition SetWithNotExist (key : string) (value : V) : M (V * bool) :=
  index <- getIndex key ;;
  '(val, ok) <- load index key ;;
  if ok then ret (val, false)
  else
    _ <- store index key value ;;
    ret (value, true).

Definition Get (key : string) : M (V * bool) :=
  index <- getIndex key ;;
  '(value, ok) <- load index key ;;
  ret (value, ok).

Definition GetWithDefault (key : string) (defaultValue : V) : M (V * bool) :=
  index <- getIndex key ;;
  '(value, ok) <- load index key ;;
  let value := if negb ok then defaultValue else value in
  ret (value, ok).

Definition Delete (key : string) : M bool :=
  index <- getIndex key ;;
  '(_, ok) <- load index key ;;
  if negb ok then ret false
  else
    _ <- remove index key ;;
    ret true.

(** [delIf] runs under the shard's lock and must not touch the map; it
    only reaches the caller's state. *)
Definition DeleteIf (key : string) (delIf : V -> St -> bool * St) : M bool :=
  index <- getIndex key ;;
  '(val, ok) <- load index key ;;
  if negb ok then ret false
  else
    del <- call (delIf val) ;;
    if negb del then ret false
    else
      _ <- remove index key ;;
      ret true.

(** *** Whole-map operations *)

Fixpoint Len_loop (ixs : list Z) (count : Z) : M Z :=
  match ixs with
  | [] => ret count
  | i :: rest =>
      it <- shard i ;;
      Len_loop rest (count + Z.of_nat (size (data it)))
  end.

Definition Len : M Z :=
  m <- get_map ;;
  Len_loop (indices (length (datas m))) 0.

Fixpoint LenWithSlice_loop (ixs : list Z) (counts : list Z) : M (list Z) :=
  match ixs with
  | [] => ret counts
  | i :: rest =>
      it <- shard i ;;
      LenWithSlice_loop rest (counts ++ [Z.of_nat (size (data it))])
  end.

Definition LenWithSlice : M (list Z) :=
  m <- get_map ;;
  LenWithSlice_loop (indices (length (datas m))) [].

Fixpoint Clear_loop (ixs : list Z) : M unit :=
  match ixs with
  | [] => ret tt
  | i :: rest => _ <- put_data i ∅ ;; Clear_loop rest
  end.

Definition Clear : M unit :=
  m <- get_map ;;
  Clear_loop (indices (length (datas m))).

(** The inner loop of [Range] over the copy [tmpMaps]; the result tells
    whether the visitor asked to go on.  No lock is held while the
    visitor runs, so it is a computation with the map in reach. *)
Fixpoint Range_visit (f : string -> V -> M bool) (l : list (string * V))
  : M bool :=
  match l with
  | [] => ret true
  | (key, value) :: l' =>
      continue <- f key value ;;
      if negb continue then ret false else Range_visit f l'
  end.

Fixpoint Range_loop (f : string -> V -> M bool) (ixs : list Z) : M unit :=
  match ixs with
  | [] => ret tt
  | i :: rest =>
      it <- shard i ;;
      let tmpMaps := data it in
      continue <- Range_visit f (iter_order i tmpMaps) ;;
      if continue then Range_loop f rest else ret tt
  end.

Definition Range (f : string -> V -> M bool) : M unit :=
  m <- get_map ;;
  Range_loop f (indices (length (datas m))).

(** The closure of [Prune] that traverses shard [i] under its lock.
    The only entry it deletes is the one in hand, so the traversal
    yields every entry the shard held when it began, [l].  The
    predicate must not touch the map and only reaches the caller's
    state; an error is [Some]. *)
Fixpoint Prune_shard (f : string -> V -> St -> (bool * option Err) * St)
    (i : Z) (l : list (string * V)) (delNum nowNum : Z)
  : M (Z * Z * option Err) :=
  match l with
  | [] => ret (delNum, nowNum, None)
  | (key, value) :: l' =>
      '(ok, err) <- call (f key value) ;;
      match err with
      | Some e => ret (delNum, nowNum, Some e)
      | None =>
          if ok then
            _ <- remove i key ;;
            Prune_shard f i l' (delNum + 1) nowNum
          else Prune_shard f i l' delNum (nowNum + 1)
      end
  end.

Fixpoint Prune_loop (f : string -> V -> St -> (bool * option Err) * St)
    (ixs : list Z) (delNum nowNum : Z) : M (Z * Z * option Err) :=
  match ixs with
  | [] => ret (delNum, nowNum, None)
  | i :: rest =>
      it <- shard i ;;
      '(delNum', nowNum', err) <-
        Prune_shard f i (iter_order i (data it)) delNum nowNum ;;
      match err with
      | Some e => ret (delNum', nowNum', Some e)
      | None => Prune_loop f rest delNum' nowNum'
      end
  end.

Definition Prune (f : string -> V -> St -> (bool * option Err) * St)
  : M (Z * Z * option Err) :=
  m <- get_map ;;
  Prune_loop f (indices (length (datas m))) 0 0.

Definition ShardCount : M Z :=
  m <- get_map ;;
  ret (Z.of_nat (length (datas m))).

End HMap.

End Hmap.

Import Hmap.

(** ** The earlier version of the package ([src/unnamed/part_000])

    The earlier file has the same shard table (its fields [maps] of
    [Map] and [maps] of [MapItem] are [datas] and [data] here) and the
    same routing: its [getIndex] resets a pooled [maphash.Hash], seeds
    it, writes the key and takes [Sum64], which is the digest
    [maphash.String] gives for that seed and key.  It differs in the
    default shard count, in [Set] and [Get] taking optional arguments,
    and in [GetMaps] and [GetAllMaps]. *)

Module Legacy.

Definition defaultShardCount : Z := Z.shiftl 1 5.

Section Legacy.

Context {V St : Type}.
Variable zeroV : V.
Context {Seed : Type}.
Variable maphash_String : Seed -> string -> Z.

Notation "x <- c ;; k" := (bind c (fun x => k))
  (at level 20, c at level 99, k at level 200, only parsing).
Notation "' p <- c ;; k" := (bind c (fun x => let 'p := x in k))
  (at level 20, p pattern, c at level 99, k at level 200, only parsing).

Definition New (inShardCount : list Z) (seed0 : Seed) : @Map V Seed :=
  let shardCount :=
    match inShardCount with
    | [] => defaultShardCount
    | hint :: _ => trueShards hint
    end in
  MkMap (replicate (Z.to_nat shardCount) (MapItem ∅)) seed0.

Definition getIndex (key : string) : @M V St Seed Z :=
  m <- get_map ;;
  ret (index_of maphash_String m key).

(** [Set(key, value, onlyIfNotExist ...bool) V]: with the flag, a first
    look under the read lock, then a second one under the write lock. *)
Definition Set_ (key : string) (value : V) (onlyIfNotExist : list bool)
  : @M V St Seed V :=
  let ifNotExist :=
    match onlyIfNotExist with
    | [] => false
    | flag :: _ => flag
    end in
  index <- getIndex key ;;
  if ifNotExist then
    '(val, ok) <- load zeroV index key ;;
    if ok then ret val
    else
      '(val, ok) <- load zeroV index key ;;
      if ok then ret val
      else
        _ <- store index key value ;;
        ret value
  else
    _ <- store index key value ;;
    ret value.

(** [Get(key, defaultValue ...V) (V, bool)] *)
Definition Get (key : string) (defaultValue : list V)
  : @M V St Seed (V * bool) :=
  index <- getIndex key ;;
  '(value, ok) <- load zeroV index key ;;
  let value :=
    match defaultValue with
    | d :: _ => if negb ok then d else value
    | [] => value
    end in
  ret (value, ok).

(** [GetMaps(index)]: a copy of one shard's dictionary, [nil] ([None])
    for an index out of range. *)
Definition GetMaps (index : Z) : @M V St Seed (option (gmap string V)) :=
  m <- get_map ;;
  if (index <? 0) || (index >=? Z.of_nat (length (datas m))) then ret None
  else
    it <- shard index ;;
    let result : gmap string V := ∅ in
    (* maps.Copy(result, src): the entries of src overwrite result *)
    let result := data it ∪ result in
    ret (Some result).

Fixpoint GetAllMaps_loop (ixs : list Z) (re : gmap string V)
  : @M V St Seed (gmap string V) :=
  match ixs with
  | [] => ret re
  | i :: rest =>
      it <- shard i ;;
      GetAllMaps_loop rest (data it ∪ re)
  end.

Definition GetAllMaps : @M V St Seed (gmap string V) :=
  m <- get_map ;;
  GetAllMaps_loop (indices (length (datas m))) ∅.

End Legacy.

End Legacy.


(** ** Specification-level notions and instrumentation *)

Module Model.

Section Spec.

Context {V St Err Seed : Type}.
Variable maphash_String : Seed -> string -> Z.

(** The shard count is a power of two in [[1, 65536]]. *)
Definition pow2_shards (m : @Map V Seed) : Prop :=
  exists e, 0 <= e <= 16 /\ Z.of_nat (length (datas m)) = 2 ^ e.

(** Every entry sits in the shard its key is routed to. *)
Definition routed (m : @Map V Seed) : Prop :=
  forall (i : nat) it key,
    datas m !! i = Some it -> is_Some (data it !! key) ->
    index_of maphash_String m key = Z.of_nat i.

(** The invariant of every map built by [New] and the methods. *)
Definition wf (m : @Map V Seed) : Prop := pow2_shards m /\ routed m.

(** The dictionary of the shard a key is routed to. *)
Definition shard_data (m : @Map V Seed) (key : string) : gmap string V :=
  match datas m !! Z.to_nat (index_of maphash_String m key) with
  | Some it => data it
  | None => ∅
  end.

(** What the map holds for a key. *)
Definition mlookup (m : @Map V Seed) (key : string) : option V :=
  shard_data m key !! key.

(** The map with the dictionary of shard [i] replaced. *)
Definition with_data (m : @Map V Seed) (i : Z) (d : gmap string V)
  : @Map V Seed :=
  MkMap (<[Z.to_nat i := MapItem d]> (datas m)) (seed m).

(** The map after [m.datas[index_of key].data[key] = value]. *)
Definition set_map (m : @Map V Seed) (key : string) (value : V)
  : @Map V Seed :=
  with_data m (index_of maphash_String m key)
            (<[key := value]> (shard_data m key)).

(** The map after [delete(m.datas[index_of key].data, key)]. *)
Definition del_map (m : @Map V Seed) (key : string) : @Map V Seed :=
  with_data m (index_of maphash_String m key)
            (delete key (shard_data m key)).

(** The result of a lookup, with the zero value for an absent key. *)
Definition found (zeroV : V) (o : option V) : V * bool :=
  match o with
  | Some v => (v, true)
  | None => (zeroV, false)
  end.


(** All entries of the map, as one dictionary. *)
Definition contents (m : @Map V Seed) : gmap string V :=
  ⋃ (data <$> datas m).

(** The map after [Clear]. *)
Definition cleared (m : @Map V Seed) : @Map V Seed :=
  MkMap (replicate (length (datas m)) (MapItem ∅)) (seed m).

(** The pairs met by a traversal of the shards [ds], the first of which
    has index [j]. *)
Definition visit_from (iter_order : Z -> gmap string V -> list (string * V))
    (j : nat) (ds : list (@mapItem V)) : list (string * V) :=
  concat (zip_with (fun i it => iter_order i (data it))
                   (Z.of_nat <$> seq j (length ds)) ds).


(** The pairs in the order a traversal of all shards meets them. *)
Definition visit_order (iter_order : Z -> gmap string V -> list (string * V))
    (m : @Map V Seed) : list (string * V) :=
  visit_from iter_order 0 (datas m).

(** A closure wrapped so that it records each pair it is handed, in
    the second component of the caller's state. *)
Definition logged {R} (f : string -> V -> St -> R * St)
  : string -> V -> St * list (string * V) -> R * (St * list (string * V)) :=
  fun key value '(s, log) =>
    let '(r, s') := f key value s in (r, (s', log ++ [(key, value)])).

(** The same for a visitor that has the map in reach; the answer of the
    visitor is recorded with the pair. *)
Definition logged_visitor (f : string -> V -> @M V St Seed bool)
  : string -> V -> @M V (St * list (string * V * bool)) Seed bool :=
  fun key value w =>
    match f key value (MkWorld (hmap w) (fst (caller w))) with
    | Some (r, w') =>
        Some (r, MkWorld (hmap w')
                         (caller w', snd (caller w) ++ [(key, value, r)]))
    | None => None
    end.

(** A visitor that leaves the map as it is: it may read it, and change
    the caller's own state. *)
Definition reads_only (f : string -> V -> @M V St Seed bool) : Prop :=
  forall key value w,
    exists c s', f key value w = Some (c, MkWorld (hmap w) s').

(** The record of a traversal that went on to its end ([true]) or was
    stopped by the visitor ([false]): every answer is [true], but for
    the last one of a traversal that was stopped. *)
Definition answers (c : bool) (lg : list (string * V * bool)) : Prop :=
  if c then Forall (fun e => e.2 = true) lg
  else exists pre e,
      lg = pre ++ [e] /\ e.2 = false /\ Forall (fun e => e.2 = true) pre.

(** The world with a record of calls next to the caller's state. *)
Definition with_log (w : @World V St Seed) (lg : list (string * V * bool))
  : @World V (St * list (string * V * bool)) Seed :=
  MkWorld (hmap w) (caller w, lg).

(** The recorded calls made one after the other from the world [w]:
    the world they lead to, when each call returns and gives the answer
    that was recorded.  Nothing but the visitor acts on the world. *)
Fixpoint replay (f : string -> V -> @M V St Seed bool)
    (lg : list (string * V * bool)) (w : @World V St Seed)
  : option (@World V St Seed) :=
  match lg with
  | [] => Some w
  | (key, value, c) :: lg' =>
      match f key value w with
      | Some (c', w1) => if Bool.eqb c' c then replay f lg' w1 else None
      | None => None
      end
  end.

(** A visitor that leaves the map as it is whenever it returns. *)
Definition quiet (f : string -> V -> @M V St Seed bool) : Prop :=
  forall key value w c w',
    f key value w = Some (c, w') -> hmap w' = hmap w.

(** A traversal by snapshots, as the documentation of [Range] describes
    it: [traversal f j k w lg w'] says that the [k] shards from index [j]
    on are gone through from the world [w], with the calls [lg] of the
    visitor, and that the world is [w'] at the end.  For each shard the
    pairs handed over are those of the dictionary the shard holds at the
    time it is reached, whatever the visitor writes while they are
    handed over; a shard gone through to its end is followed by the next
    one, a false answer ends the traversal. *)
Inductive traversal
    (iter_order : Z -> gmap string V -> list (string * V))
    (f : string -> V -> @M V St Seed bool)
  : nat -> nat -> @World V St Seed -> list (string * V * bool)
    -> @World V St Seed -> Prop :=
  | traversal_end j w : traversal iter_order f j 0 w [] w
  | traversal_shard j k w it lg1 w1 lg2 w' :
      datas (hmap w) !! j = Some it ->
      lg1.*1 = iter_order (Z.of_nat j) (data it) ->
      answers true lg1 ->
      replay f lg1 w = Some w1 ->
      traversal iter_order f (S j) k w1 lg2 w' ->
      traversal iter_order f j (S k) w (lg1 ++ lg2) w'
  | traversal_stop j k w it lg1 w' :
      datas (hmap w) !! j = Some it ->
      lg1.*1 `prefix_of` iter_order (Z.of_nat j) (data it) ->
      answers false lg1 ->
      replay f lg1 w = Some w' ->
      traversal iter_order f j (S k) w lg1 w'.


(** A predicate run over a list of pairs until it reports an error:
    the keys it asked to delete, the keys it asked to keep, the error
    if there was one, and the caller's state at the end. *)
Fixpoint sweep (f : string -> V -> St -> (bool * option Err) * St)
    (l : list (string * V)) (s : St)
  : list string * list string * option Err * St :=
  match l with
  | [] => ([], [], None, s)
  | (key, value) :: l' =>
      match f key value s with
      | ((_, Some e), s') => ([], [], Some e, s')
      | ((ok, None), s') =>
          let '(dels, keeps, err, s'') := sweep f l' s' in
          if ok then (key :: dels, keeps, err, s'')
          else (dels, key :: keeps, err, s'')
      end
  end.

(** The map after deleting the keys [dels] one after the other. *)
Definition del_keys (m : @Map V Seed) (dels : list string) : @Map V Seed :=
  foldl del_map m dels.

(** A predicate on pairs as a [Prune] callback that never fails. *)
Definition pure_pred (p : string -> V -> bool)
  : string -> V -> St -> (bool * option Err) * St :=
  fun key value s => ((p key value, None), s).

End Spec.

(** Sequences of calls on one map. *)
Section Calls.

Context {V St Err Seed : Type}.
Variable zeroV : V.
Variable maphash_String : Seed -> string -> Z.
Variable iter_order : Z -> gmap string V -> list (string * V).

(** A call of a method, with its arguments. *)
Inductive op : Type :=
  | OSet (key : string) (value : V)
  | OSetWithNotExist (key : string) (value : V)
  | OGet (key : string)
  | OGetWithDefault (key : string) (defaultValue : V)
  | ODelete (key : string)
  | ODeleteIf (key : string) (delIf : V -> St -> bool * St)
  | OLen
  | OClear
  | OPrune (f : string -> V -> St -> (bool * option Err) * St).

(** Make the call and drop what it returns. *)
Definition exec (o : op) : @M V St Seed unit :=
  match o with
  | OSet key value => Set_ maphash_String key value
  | OSetWithNotExist key value =>
      bind (SetWithNotExist zeroV maphash_String key value) (fun _ => ret tt)
  | OGet key => bind (Get zeroV maphash_String key) (fun _ => ret tt)
  | OGetWithDefault key d =>
      bind (GetWithDefault zeroV maphash_String key d) (fun _ => ret tt)
  | ODelete key => bind (Delete zeroV maphash_String key) (fun _ => ret tt)
  | ODeleteIf key delIf =>
      bind (DeleteIf zeroV maphash_String key delIf) (fun _ => ret tt)
  | OLen => bind Len (fun _ => ret tt)
  | OClear => Clear
  | OPrune f => bind (Prune iter_order f) (fun _ => ret tt)
  end.

Fixpoint run (ops : list op) : @M V St Seed unit :=
  match ops with
  | [] => ret tt
  | o :: ops' => bind (exec o) (fun _ => run ops')
  end.

(** The calls that can overwrite or remove an entry that [key] has.
    [SetWithNotExist] is not among them: it never changes an entry
    that exists. *)
Definition clobbers (key : string) (o : op) : Prop :=
  match o with
  | OSet key' _ | ODelete key' | ODeleteIf key' _ => key' = key
  | OClear | OPrune _ => True
  | OSetWithNotExist _ _ | OGet _ | OGetWithDefault _ _ | OLen => False
  end.

End Calls.


End Model.

Import Model.

(** ** A concrete instance, for examples *)

Module Demo.

(** Integer values, a trivial seed, a hash that weighs the characters
    of the key, and the order of [map_to_list] for traversals. *)
Fixpoint weigh (key : string) : Z :=
  match key with
  | EmptyString => 0
  | String c key' => Z.of_nat (Ascii.nat_of_ascii c) + 31 * weigh key'
  end.

Definition hash (_ : unit) (key : string) : Z := weigh key.

Definition order (_ : Z) (d : gmap string Z) : list (string * Z) :=
  map_to_list d.

(** The map [{a:1, b:5, c:10, d:15}] on two shards. *)
Definition four : @Map Z unit :=
  set_map hash
    (set_map hash
       (set_map hash (set_map hash (New [2] tt) "a" 1) "b" 5) "c" 10)
    "d" 15.

(** The map [{b:5, d:15}] on one shard. *)
Definition pair : @Map Z unit :=
  set_map hash (set_map hash (New [1] tt) "b" 5) "d" 15.

(** [value < 10] *)
Definition small (_ : string) (value : Z) : bool := value <? 10.

(** A predicate that counts its calls, asks to delete the values below
    10 and fails on the values from 15 on. *)
Definition picky (_ : string) (value : Z) (calls : nat)
  : (bool * option string) * nat :=
  ((value <? 10, if 15 <=? value then Some "too large"%string else None),
   S calls).

(** A visitor that counts its calls and stops at the first value from
    10 on. *)
Definition counting (_ : string) (value : Z) : @M Z nat unit bool :=
  fun w => Some (value <? 10, MkWorld (hmap w) (S (caller w))).

(** A visitor that deletes both keys of [pair] each time it is called. *)
Definition nosy (_ : string) (_ : Z) : @M Z unit unit bool :=
  bind (Delete 0 hash "b")
       (fun _ => bind (Delete 0 hash "d") (fun _ => ret true)).

(** A visitor that counts its calls and never stops. *)
Definition tally (_ : string) (_ : Z) : @M Z nat unit bool :=
  fun w => Some (true, MkWorld (hmap w) (S (caller w))).

(** The property the visitor [nosy] keeps: a well-formed map on one
    shard. *)
Definition one_shard (w : @World Z unit unit) : Prop :=
  wf hash (hmap w) /\ length (datas (hmap w)) = 1%nat.

End Demo.


(** ** Facts about machine integers and [trueShards] *)

Lemma to_int_small z : Int.in_int z -> Int.to_int z = z.
Proof.
  unfold Int.in_int, Int.to_int, Int.half_modulus, Int.modulus. intros Hz.
  rewrite Z.mod_small; lia.
Qed.

Lemma to_uint64_small z : 0 <= z < Int.modulus -> Int.to_uint64 z = z.
Proof. intros Hz. unfold Int.to_uint64. by apply Z.mod_small. Qed.

Lemma to_uint64_range z : 0 <= Int.to_uint64 z < Int.modulus.
Proof. unfold Int.to_uint64, Int.modulus. apply Z.mod_pos_bound. lia. Qed.


Example trueShards_100 : trueShards 100 = 128.
Proof. reflexivity. Qed.

Example trueShards_samples :
  map trueShards [-5; 0; 1; 2; 3; 4; 5; 64; 65; 65535; 65536; 65537; 1000000]
  = [1; 1; 1; 2; 4; 4; 8; 64; 128; 65536; 65536; 65536; 65536].
Proof. reflexivity. Qed.

(** *** The smearing steps fill every bit below the top one *)

Lemma filled_init n : 0 < n -> filled n (Z.log2 n) 1.
Proof.
  intros Hn. split.
  - intros i Hi. apply Z.bits_above_log2; lia.
  - intros i _ Hi. replace i with (Z.log2 n) by lia. by apply Z.bit_log2.
Qed.

Lemma filled_step n top w :
  0 < w -> filled n top w -> filled (or_shr n w) top (w + w).
Proof.
  intros Hw [Hhi Hlo]. unfold or_shr. split.
  - intros i Hi. rewrite Z.lor_spec.
    destruct (Z.le_gt_cases 0 i) as [Hi0|Hi0].
    + rewrite Z.shiftr_spec by done. rewrite !Hhi by lia. done.
    + by rewrite !Z.testbit_neg_r.
  - intros i Hi0 Hi. rewrite Z.lor_spec, Z.shiftr_spec by done.
    destruct (Z.le_gt_cases i (top - w)) as [Hlow|Hhigh].
    + rewrite (Hlo (i + w)) by lia. apply orb_true_r.
    + rewrite (Hlo i) by lia. done.
Qed.

Lemma filled_smear n : 0 < n -> filled (smear n) (Z.log2 n) 32.
Proof.
  intros Hn. unfold smear.
  apply (filled_step _ _ 16); [lia|].
  apply (filled_step _ _ 8); [lia|].
  apply (filled_step _ _ 4); [lia|].
  apply (filled_step _ _ 2); [lia|].
  apply (filled_step _ _ 1); [lia|].
  by apply filled_init.
Qed.

Lemma smear_ones n :
  0 < n -> Z.log2 n < 32 -> smear n = Z.ones (Z.succ (Z.log2 n)).
Proof.
  intros Hn Hlog. destruct (filled_smear n Hn) as [Hhi Hlo].
  pose proof (Z.log2_nonneg n) as Hnn.
  apply Z.bits_inj'. intros i Hi.
  destruct (Z.le_gt_cases i (Z.log2 n)) as [Hle|Hgt].
  - rewrite Hlo by lia. symmetry. apply Z.ones_spec_low. lia.
  - rewrite Hhi by lia. symmetry. apply Z.ones_spec_high. lia.
Qed.

Lemma smear_0 : smear 0 = 0.
Proof. reflexivity. Qed.

(** In the unclamped range [trueShards] is [2 ^ log2_up]. *)
Lemma trueShards_pow2 n :
  1 <= n <= 65536 -> trueShards n = 2 ^ Z.log2_up n.
Proof.
  intros Hn. unfold trueShards, maxShards.
  destruct (Z.ltb_spec n 1) as [?|_]; [lia|].
  change (Z.shiftl 1 16) with 65536.
  destruct (Z.gtb_spec n 65536) as [?|_]; [lia|].
  rewrite (to_int_small (n - 1))
    by (unfold Int.in_int, Int.half_modulus; lia).
  destruct (Z.eq_dec n 1) as [->|Hne]; [reflexivity|].
  assert (Hlog : Z.log2 (n - 1) < 16).
  { apply Z.log2_lt_pow2; lia. }
  pose proof (Z.log2_nonneg (n - 1)) as Hnn.
  rewrite smear_ones by lia.
  rewrite Z.ones_equiv.
  assert (Hup : Z.log2_up n = Z.succ (Z.log2 (n - 1))).
  { unfold Z.log2_up. destruct (Z.compare_spec 1 n); try lia.
    by rewrite <- Z.sub_1_r. }
  rewrite Hup.
  assert (0 < 2 ^ Z.succ (Z.log2 (n - 1)) <= 2 ^ 16).
  { split; [apply Z.pow_pos_nonneg; lia|].
    apply Z.pow_le_mono_r; lia. }
  rewrite to_int_small
    by (unfold Int.in_int, Int.half_modulus; lia).
  lia.
Qed.

(** [2 ^ log2_up n] is the least power of two that is at least [n]. *)
Lemma pow2_log2_up_least n :
  n <= 2 ^ Z.log2_up n /\
  forall e, 0 <= e -> n <= 2 ^ e -> 2 ^ Z.log2_up n <= 2 ^ e.
Proof.
  destruct (Z.le_gt_cases n 1) as [Hle|Hgt].
  - rewrite Z.log2_up_eqn0 by done. split; [simpl; lia|].
    intros e He _. change (2 ^ 0) with 1.
    pose proof (Z.pow_pos_nonneg 2 e). lia.
  - destruct (Z.log2_up_spec n Hgt) as [Hlo Hhi]. split; [done|].
    intros e He Hne. apply Z.pow_le_mono_r; [lia|].
    destruct (Z.le_gt_cases (Z.log2_up n) e) as [|Hlt]; [done|].
    assert (2 ^ e <= 2 ^ Z.pred (Z.log2_up n))
      by (apply Z.pow_le_mono_r; lia).
    lia.
Qed.

Lemma trueShards_spec n : trueShards n = spec_shard_count n.
Proof.
  unfold spec_shard_count.
  destruct (Z.lt_ge_cases n 1) as [Hlt|Hge].
  - unfold trueShards. destruct (Z.ltb_spec n 1); [|lia].
    rewrite Z.log2_up_eqn0 by lia. reflexivity.
  - destruct (Z.le_gt_cases n 65536) as [Hle|Hgt].
    + rewrite trueShards_pow2 by lia.
      assert (0 < 2 ^ Z.log2_up n)
        by (apply Z.pow_pos_nonneg; [lia|apply Z.log2_up_nonneg]).
      assert (2 ^ Z.log2_up n <= 2 ^ 16).
      { apply Z.pow_le_mono_r; [lia|].
        change 16 with (Z.log2_up 65536). by apply Z.log2_up_le_mono. }
      lia.
    + unfold trueShards, maxShards. change (Z.shiftl 1 16) with 65536.
      destruct (Z.ltb_spec n 1); [lia|].
      destruct (Z.gtb_spec n 65536); [|lia].
      assert (2 ^ 16 <= 2 ^ Z.log2_up n).
      { apply Z.pow_le_mono_r; [lia|].
        change 16 with (Z.log2_up 65536). apply Z.log2_up_le_mono. lia. }
      lia.
Qed.

(** The shard count is a power of two between [2^0] and [2^16]. *)
Lemma trueShards_is_pow2 n :
  exists e, 0 <= e <= 16 /\ trueShards n = 2 ^ e.
Proof.
  destruct (Z.lt_ge_cases n 1) as [Hlt|Hge].
  - exists 0. split; [lia|]. unfold trueShards.
    by destruct (Z.ltb_spec n 1); [|lia].
  - destruct (Z.le_gt_cases n 65536) as [Hle|Hgt].
    + exists (Z.log2_up n). split; [|by apply trueShards_pow2].
      split; [apply Z.log2_up_nonneg|].
      change 16 with (Z.log2_up 65536). by apply Z.log2_up_le_mono.
    + exists 16. split; [lia|]. unfold trueShards, maxShards.
      change (Z.shiftl 1 16) with 65536.
      destruct (Z.ltb_spec n 1); [lia|].
      by destruct (Z.gtb_spec n 65536); [|lia].
Qed.

(** ** Facts about the map *)

Section Facts.

Context {V Err Seed : Type}.
Variable zeroV : V.
Variable maphash_String : Seed -> string -> Z.
Variable iter_order : Z -> gmap string V -> list (string * V).
Hypothesis iter_order_perm : forall i d, iter_order i d ≡ₚ map_to_list d.

Local Abbreviation Map := (@Map V Seed).
Local Abbreviation index_of := (index_of maphash_String).
Local Abbreviation getIndex := (getIndex maphash_String).
Local Abbreviation wf := (wf maphash_String).
Local Abbreviation routed := (routed maphash_String).
Local Abbreviation shard_data := (shard_data maphash_String).
Local Abbreviation mlookup := (mlookup maphash_String).
Local Abbreviation Set_ := (Set_ maphash_String).
Local Abbreviation SetWithNotExist := (SetWithNotExist zeroV maphash_String).
Local Abbreviation Get := (Get zeroV maphash_String).
Local Abbreviation GetWithDefault := (GetWithDefault zeroV maphash_String).
Local Abbreviation Delete := (Delete zeroV maphash_String).
Local Abbreviation DeleteIf := (DeleteIf zeroV maphash_String).
Local Abbreviation Range := (Range iter_order).
Local Abbreviation Range_loop := (Range_loop iter_order).
Local Abbreviation Prune := (Prune iter_order).
Local Abbreviation Prune_loop := (Prune_loop iter_order).
Local Abbreviation visit_order := (visit_order iter_order).

Local Abbreviation set_map := (set_map maphash_String).
Local Abbreviation del_map := (del_map maphash_String).


(** *** Routing *)

Lemma pow2_shards_pos (m : Map) : pow2_shards m -> 0 < Z.of_nat (length (datas m)).
Proof.
  intros (e & He & ->). apply Z.pow_pos_nonneg; lia.
Qed.

(** The mask is the remainder modulo the shard count. *)
Lemma index_of_mod (m : Map) key :
  pow2_shards m ->
  index_of m key =
    Int.to_uint64 (maphash_String (seed m) key) mod Z.of_nat (length (datas m)).
Proof.
  intros (e & He & Hlen). unfold Hmap.index_of. cbv zeta. rewrite Hlen.
  assert (Hpow : 0 < 2 ^ e <= 2 ^ 16).
  { split; [apply Z.pow_pos_nonneg; lia|apply Z.pow_le_mono_r; lia]. }
  change (2 ^ 16) with 65536 in Hpow.
  rewrite (to_int_small (2 ^ e - 1))
    by (unfold Int.in_int, Int.half_modulus; lia).
  rewrite (to_uint64_small (2 ^ e - 1)) by (unfold Int.modulus; lia).
  rewrite Z.sub_1_r, <- Z.ones_equiv, Z.land_ones by lia.
  apply to_int_small. unfold Int.in_int, Int.half_modulus.
  pose proof (Z.mod_pos_bound
                (Int.to_uint64 (maphash_String (seed m) key)) (2 ^ e)).
  lia.
Qed.

Lemma index_of_range (m : Map) key :
  pow2_shards m -> 0 <= index_of m key < Z.of_nat (length (datas m)).
Proof.
  intros Hm. rewrite index_of_mod by done.
  apply Z.mod_pos_bound. by apply pow2_shards_pos.
Qed.

Lemma index_of_with_data (m : Map) i d key :
  index_of (with_data m i d) key = index_of m key.
Proof.
  unfold Hmap.index_of, with_data. simpl. by rewrite length_insert.
Qed.

Lemma pow2_shards_with_data (m : Map) i d :
  pow2_shards m -> pow2_shards (with_data m i d).
Proof.
  unfold pow2_shards, with_data. simpl. by rewrite length_insert.
Qed.

Lemma shard_data_lookup (m : Map) key :
  pow2_shards m ->
  exists it, datas m !! Z.to_nat (index_of m key) = Some it
             /\ shard_data m key = data it.
Proof.
  intros Hm. pose proof (index_of_range m key Hm) as Hr.
  destruct (lookup_lt_is_Some_2 (datas m) (Z.to_nat (index_of m key)))
    as [it Hit]; [lia|].
  exists it. split; [done|]. unfold Model.shard_data. by rewrite Hit.
Qed.

Lemma shard_data_with_data (m : Map) i d key :
  pow2_shards m -> 0 <= i < Z.of_nat (length (datas m)) ->
  shard_data (with_data m i d) key =
    if decide (index_of m key = i) then d else shard_data m key.
Proof.
  intros Hm Hi. pose proof (index_of_range m key Hm) as Hr.
  unfold Model.shard_data.
  rewrite index_of_with_data. unfold with_data. simpl.
  case_decide as Heq.
  - subst i. rewrite list_lookup_insert_eq by lia. done.
  - rewrite list_lookup_insert_ne by lia. done.
Qed.

Lemma mlookup_with_data (m : Map) i d key :
  pow2_shards m -> 0 <= i < Z.of_nat (length (datas m)) ->
  mlookup (with_data m i d) key =
    if decide (index_of m key = i) then d !! key else mlookup m key.
Proof.
  intros Hm Hi. unfold Model.mlookup.
  rewrite shard_data_with_data by done. by case_decide.
Qed.

Lemma wf_with_data (m : Map) i d :
  wf m -> 0 <= i < Z.of_nat (length (datas m)) ->
  (forall key, is_Some (d !! key) -> index_of m key = i) ->
  wf (with_data m i d).
Proof.
  intros [Hp Hr] Hi Hd. split; [by apply pow2_shards_with_data|].
  intros j it key Hj Hkey. rewrite index_of_with_data.
  unfold with_data in Hj. simpl in Hj.
  destruct (decide (Z.to_nat i = j)) as [<-|Hne].
  - rewrite list_lookup_insert_eq in Hj by lia.
    injection Hj as <-. simpl in Hkey. rewrite (Hd key Hkey). lia.
  - rewrite list_lookup_insert_ne in Hj by done. by eapply Hr.
Qed.

(** Entries found in shard [i] are routed to [i]. *)
Lemma routed_shard_data (m : Map) key key' :
  wf m -> is_Some (shard_data m key !! key') ->
  index_of m key' = index_of m key.
Proof.
  intros [Hp Hr] Hk. destruct (shard_data_lookup m key Hp) as (it & Hit & Hd).
  rewrite Hd in Hk. rewrite (Hr _ _ _ Hit Hk).
  pose proof (index_of_range m key Hp). lia.
Qed.

Lemma shard_data_same_index (m : Map) key key' :
  index_of m key' = index_of m key -> shard_data m key' = shard_data m key.
Proof. unfold Model.shard_data. by intros ->. Qed.

Lemma mlookup_set_map (m : Map) key value key' :
  pow2_shards m ->
  mlookup (set_map m key value) key' =
    if decide (key' = key) then Some value else mlookup m key'.
Proof.
  intros Hm. unfold Model.set_map.
  rewrite mlookup_with_data by (done || by apply index_of_range).
  case_decide as Hi; case_decide as Hk; subst.
  - apply lookup_insert_eq.
  - rewrite lookup_insert_ne by done. unfold Model.mlookup.
    by rewrite (shard_data_same_index _ _ _ Hi).
  - done.
  - done.
Qed.

Lemma mlookup_del_map (m : Map) key key' :
  pow2_shards m ->
  mlookup (del_map m key) key' =
    if decide (key' = key) then None else mlookup m key'.
Proof.
  intros Hm. unfold Model.del_map.
  rewrite mlookup_with_data by (done || by apply index_of_range).
  case_decide as Hi; case_decide as Hk; subst.
  - apply lookup_delete_eq.
  - rewrite lookup_delete_ne by done. unfold Model.mlookup.
    by rewrite (shard_data_same_index _ _ _ Hi).
  - done.
  - done.
Qed.

Lemma wf_set_map (m : Map) key value : wf m -> wf (set_map m key value).
Proof.
  intros Hm. apply wf_with_data; [done|apply index_of_range, Hm|].
  intros key' Hk. destruct (decide (key' = key)) as [->|Hne]; [done|].
  rewrite lookup_insert_ne in Hk by done. by apply routed_shard_data.
Qed.

Lemma wf_del_map (m : Map) key : wf m -> wf (del_map m key).
Proof.
  intros Hm. apply wf_with_data; [done|apply index_of_range, Hm|].
  intros key' Hk. destruct (decide (key' = key)) as [->|Hne]; [done|].
  rewrite lookup_delete_ne in Hk by done. by apply routed_shard_data.
Qed.

Lemma del_map_absent (m : Map) key :
  pow2_shards m -> mlookup m key = None -> del_map m key = m.
Proof.
  intros Hm Hk. destruct (shard_data_lookup m key Hm) as (it & Hit & Hd).
  unfold Model.del_map, with_data. destruct m as [ds sd]. simpl in *.
  f_equal. rewrite delete_id by done. rewrite Hd.
  destruct it. by apply list_insert_id.
Qed.

(** *** Construction *)

Lemma New_length hint (seed0 : Seed) :
  Z.of_nat (length (datas (New (V:=V) hint seed0))) =
    match hint with [] => 64 | n :: _ => trueShards n end.
Proof.
  unfold New. simpl. rewrite length_replicate.
  destruct hint as [|n rest]; [reflexivity|].
  destruct (trueShards_is_pow2 n) as (e & He & Hn).
  pose proof (Z.pow_pos_nonneg 2 e). lia.
Qed.

Lemma pow2_shards_New hint (seed0 : Seed) :
  pow2_shards (New (V:=V) hint seed0).
Proof.
  unfold pow2_shards. rewrite New_length.
  destruct hint as [|n rest]; [by exists 6|apply trueShards_is_pow2].
Qed.

Lemma wf_New hint (seed0 : Seed) : wf (New (V:=V) hint seed0).
Proof.
  split; [apply pow2_shards_New|].
  intros i it key Hi [v Hv]. unfold New in Hi. simpl in Hi.
  apply lookup_replicate in Hi as [-> _]. simpl in Hv.
  by rewrite lookup_empty in Hv.
Qed.

Lemma mlookup_New hint (seed0 : Seed) key :
  mlookup (New (V:=V) hint seed0) key = None.
Proof.
  unfold Model.mlookup.
  destruct (shard_data_lookup (New (V:=V) hint seed0) key
              (pow2_shards_New _ _))
    as (it & Hit & ->).
  unfold New in Hit. simpl in Hit.
  apply lookup_replicate in Hit as [-> _]. apply lookup_empty.
Qed.

(** *** Running the primitives *)

Lemma shard_at {St} (w : @World V St Seed) i it :
  0 <= i -> datas (hmap w) !! Z.to_nat i = Some it ->
  shard i w = Some (it, w).
Proof.
  intros Hi Hit. unfold shard. destruct (Z.ltb_spec i 0); [lia|].
  by rewrite Hit.
Qed.

Lemma put_data_at {St} (w : @World V St Seed) i d :
  0 <= i < Z.of_nat (length (datas (hmap w))) ->
  put_data i d w = Some (tt, MkWorld (with_data (hmap w) i d) (caller w)).
Proof.
  intros Hi. unfold put_data. destruct (Z.ltb_spec i 0); [lia|].
  destruct (lookup_lt_is_Some_2 (datas (hmap w)) (Z.to_nat i)) as [it ->];
    [lia|done].
Qed.

Lemma getIndex_run {St} (w : @World V St Seed) key :
  getIndex key w = Some (index_of (hmap w) key, w).
Proof. reflexivity. Qed.

Lemma load_run {St} (w : @World V St Seed) key :
  pow2_shards (hmap w) ->
  load zeroV (index_of (hmap w) key) key w =
    Some (found zeroV (mlookup (hmap w) key), w).
Proof.
  intros Hm. destruct (shard_data_lookup _ key Hm) as (it & Hit & Hd).
  pose proof (index_of_range _ key Hm).
  unfold load, bind. rewrite (shard_at w _ it) by (lia || done).
  unfold ret, comma_ok, found, Model.mlookup. by rewrite Hd.
Qed.

Lemma store_run {St} (w : @World V St Seed) key value :
  pow2_shards (hmap w) ->
  store (index_of (hmap w) key) key value w =
    Some (tt, MkWorld (set_map (hmap w) key value) (caller w)).
Proof.
  intros Hm. destruct (shard_data_lookup _ key Hm) as (it & Hit & Hd).
  pose proof (index_of_range _ key Hm).
  unfold store, bind. rewrite (shard_at w _ it) by (lia || done).
  rewrite put_data_at by done. unfold Model.set_map. by rewrite Hd.
Qed.

Lemma remove_run {St} (w : @World V St Seed) key :
  pow2_shards (hmap w) ->
  remove (index_of (hmap w) key) key w =
    Some (tt, MkWorld (del_map (hmap w) key) (caller w)).
Proof.
  intros Hm. destruct (shard_data_lookup _ key Hm) as (it & Hit & Hd).
  pose proof (index_of_range _ key Hm).
  unfold remove, bind. rewrite (shard_at w _ it) by (lia || done).
  rewrite put_data_at by done. unfold Model.del_map. by rewrite Hd.
Qed.

(** *** Running the point operations *)

Lemma Set_run {St} (w : @World V St Seed) key value :
  pow2_shards (hmap w) ->
  Set_ key value w =
    Some (tt, MkWorld (set_map (hmap w) key value) (caller w)).
Proof.
  intros Hm. unfold Hmap.Set_, bind. rewrite getIndex_run.
  by apply store_run.
Qed.

Lemma Get_run {St} (w : @World V St Seed) key :
  pow2_shards (hmap w) ->
  Get key w = Some (found zeroV (mlookup (hmap w) key), w).
Proof.
  intros Hm. unfold Hmap.Get, bind.
  rewrite getIndex_run, load_run by done.
  by destruct (found _ _).
Qed.

Lemma GetWithDefault_run {St} (w : @World V St Seed) key d :
  pow2_shards (hmap w) ->
  GetWithDefault key d w =
    Some (match mlookup (hmap w) key with
          | Some v => (v, true)
          | None => (d, false)
          end, w).
Proof.
  intros Hm. unfold Hmap.GetWithDefault, bind.
  rewrite getIndex_run, load_run by done.
  by destruct (mlookup _ _).
Qed.

Lemma SetWithNotExist_run {St} (w : @World V St Seed) key value :
  pow2_shards (hmap w) ->
  SetWithNotExist key value w =
    match mlookup (hmap w) key with
    | Some old => Some ((old, false), w)
    | None =>
        Some ((value, true),
              MkWorld (set_map (hmap w) key value) (caller w))
    end.
Proof.
  intros Hm. unfold Hmap.SetWithNotExist, bind.
  rewrite getIndex_run, load_run by done.
  destruct (mlookup _ _); simpl; [done|].
  by rewrite store_run.
Qed.

Lemma Delete_run {St} (w : @World V St Seed) key :
  pow2_shards (hmap w) ->
  Delete key w =
    match mlookup (hmap w) key with
    | Some _ => Some (true, MkWorld (del_map (hmap w) key) (caller w))
    | None => Some (false, w)
    end.
Proof.
  intros Hm. unfold Hmap.Delete, bind.
  rewrite getIndex_run, load_run by done.
  destruct (mlookup _ _); simpl; [|done].
  by rewrite remove_run.
Qed.

Lemma DeleteIf_run {St} (w : @World V St Seed) key delIf :
  pow2_shards (hmap w) ->
  DeleteIf key delIf w =
    match mlookup (hmap w) key with
    | Some val =>
        let '(del, s) := delIf val (caller w) in
        Some (del, MkWorld (if del then del_map (hmap w) key else hmap w) s)
    | None => Some (false, w)
    end.
Proof.
  intros Hm. unfold Hmap.DeleteIf, bind.
  rewrite getIndex_run, load_run by done.
  destruct (mlookup _ _) as [val|]; simpl; [|done].
  unfold call. destruct (delIf val (caller w)) as [del s].
  destruct del; simpl; [|done].
  by rewrite (remove_run (MkWorld (hmap w) s)).
Qed.


(** *** Claims about construction and routing *)

(** C10: on every map built by [New], with or without a hint,
    [getIndex] returns an index in [[0, ShardCount())] for every key,
    because the shard count is a power of two between 1 and 65536 and
    the mask is then the remainder modulo that count; the shard a point
    operation reads is therefore in bounds. *)
Theorem getIndex_in_bounds {St} hint (seed0 : Seed) (s : St) key :
  let w := MkWorld (New (V:=V) hint seed0) s in
  exists i n e,
    getIndex key w = Some (i, w) /\
    ShardCount w = Some (n, w) /\
    0 <= i < n /\
    0 <= e <= 16 /\ n = 2 ^ e /\
    i = Int.to_uint64 (maphash_String seed0 key) mod n /\
    exists it, shard i w = Some (it, w).
Proof.
  intros w. pose proof (pow2_shards_New hint seed0) as Hp.
  set (m := New hint seed0) in *.
  pose proof (index_of_range m key Hp) as Hr.
  pose proof (index_of_mod m key Hp) as Hmod.
  destruct Hp as (e & He & Hlen).
  destruct (lookup_lt_is_Some_2 (datas m) (Z.to_nat (index_of m key)))
    as [it Hit]; [lia|].
  exists (index_of m key), (Z.of_nat (length (datas m))), e.
  split; [done|]. split; [done|]. split; [done|]. split; [done|].
  split; [done|]. split; [done|].
  exists it. apply shard_at; [lia|done].
Qed.

(** C3: [New(n)] has [ShardCount()] equal to the smallest power of two
    that is at least [n], clamped to [[1, 65536]]: 128 for 100, 1 for
    zero and negative requests, 65536 for requests above 65536. *)
Theorem New_ShardCount {St} n rest (seed0 : Seed) (s : St) :
  let w := MkWorld (New (V:=V) (n :: rest) seed0) s in
  exists c,
    ShardCount w = Some (c, w) /\
    c = spec_shard_count n /\
    1 <= c <= 65536 /\
    (exists e, 0 <= e /\ c = 2 ^ e) /\
    (n <= 65536 -> n <= c /\ forall e, 0 <= e -> n <= 2 ^ e -> c <= 2 ^ e) /\
    (n = 100 -> c = 128) /\
    (n <= 0 -> c = 1) /\
    (65536 < n -> c = 65536).
Proof.
  intros w. exists (trueShards n).
  destruct (trueShards_is_pow2 n) as (e & He & Hc).
  assert (Hb : 1 <= 2 ^ e <= 65536).
  { change 65536 with (2 ^ 16). change 1 with (2 ^ 0) at 1.
    split; apply Z.pow_le_mono_r; lia. }
  split; [|split; [apply trueShards_spec|split; [lia|split]]].
  - unfold ShardCount, bind, get_map, ret. subst w. simpl hmap.
    by rewrite (New_length (n :: rest) seed0).
  - exists e. split; [lia|done].
  - split; [|split; [by intros ->|split]].
    + intros Hn. destruct (Z.le_gt_cases 1 n) as [H1|H1].
      * rewrite trueShards_pow2 by lia. apply pow2_log2_up_least.
      * rewrite Hc. split; [lia|]. intros e' He' _.
        rewrite <- Hc. unfold trueShards.
        destruct (Z.ltb_spec n 1); [|lia].
        pose proof (Z.pow_pos_nonneg 2 e'). lia.
    + intros Hn. unfold trueShards. by destruct (Z.ltb_spec n 1); [|lia].
    + intros Hn. unfold trueShards, maxShards.
      change (Z.shiftl 1 16) with 65536.
      destruct (Z.ltb_spec n 1); [lia|].
      by destruct (Z.gtb_spec n 65536); [|lia].
Qed.

(** *** Claims about the point operations *)

(** C9: for an absent key [GetWithDefault(k, d)] returns [(d, false)]
    and the map afterwards is the map before, so the fallback is not
    inserted (a later [Get(k)] still reports the key absent); for a key
    present with value [v] it returns [(v, true)] whatever the
    fallback. *)
Theorem GetWithDefault_no_insert {St} (w : @World V St Seed) k d :
  wf (hmap w) ->
  (mlookup (hmap w) k = None ->
     GetWithDefault k d w = Some ((d, false), w) /\
     bind (GetWithDefault k d) (fun _ => Get k) w
       = Some ((zeroV, false), w)) /\
  (forall v, mlookup (hmap w) k = Some v ->
     GetWithDefault k d w = Some ((v, true), w)).
Proof.
  intros [Hp _]. split.
  - intros Hk. unfold bind. rewrite GetWithDefault_run, Hk by done.
    split; [done|]. by rewrite Get_run, Hk.
  - intros v Hk. by rewrite GetWithDefault_run, Hk.
Qed.

(** C6: [DeleteIf(k, pred)] removes the entry of [k] and returns true
    exactly when [k] is present and [pred] holds of its current value;
    when [k] is absent or [pred] is false it returns false and the map
    is unchanged.  Other keys are never affected. *)
Theorem DeleteIf_spec {St} (w : @World V St Seed) k
    (delIf : V -> St -> bool * St) :
  wf (hmap w) ->
  exists r w',
    DeleteIf k delIf w = Some (r, w') /\
    wf (hmap w') /\
    (r = true <->
       exists val, mlookup (hmap w) k = Some val /\
                   fst (delIf val (caller w)) = true) /\
    (r = true ->
       mlookup (hmap w') k = None /\
       forall k', k' <> k -> mlookup (hmap w') k' = mlookup (hmap w) k') /\
    (r = false -> hmap w' = hmap w) /\
    (mlookup (hmap w) k = None -> w' = w).
Proof.
  intros Hwf. pose proof Hwf as [Hp _]. rewrite DeleteIf_run by done.
  destruct (mlookup (hmap w) k) as [val|] eqn:Hk.
  - destruct (delIf val (caller w)) as [del s] eqn:Hdel.
    exists del, (MkWorld (if del then del_map (hmap w) k else hmap w) s).
    split; [done|]. destruct del; simpl.
    + split; [by apply wf_del_map|]. split; [|split; [|done]].
      * split; [|done]. intros _. exists val. by rewrite Hdel.
      * intros _. split.
        -- rewrite mlookup_del_map by done. by rewrite decide_True.
        -- intros k' Hne. rewrite mlookup_del_map by done.
           by rewrite decide_False.
    + split; [done|]. split; [|done].
      split; [done|]. intros (val' & [= <-] & Hf). by rewrite Hdel in Hf.
  - exists false, w. split; [done|]. split; [done|].
    split; [|done]. split; [done|]. by intros (val & ? & _).
Qed.


(** *** The entries of the whole map *)

Lemma shards_disjoint (m : Map) :
  routed m ->
  map_disjoint_list (M:=gmap string) ((data <$> datas m) : list (gmap string V)).
Proof.
  intros Hr j1 j2 d1 d2 Hne H1 H2. rewrite list_lookup_fmap in H1, H2.
  destruct (datas m !! j1) as [it1|] eqn:E1; [|done].
  destruct (datas m !! j2) as [it2|] eqn:E2; [|done].
  simpl in H1, H2. injection H1 as <-. injection H2 as <-.
  apply map_disjoint_spec. intros key x y Hx Hy.
  pose proof (Hr _ _ key E1 (mk_is_Some _ _ Hx)).
  pose proof (Hr _ _ key E2 (mk_is_Some _ _ Hy)). lia.
Qed.

Lemma lookup_contents (m : Map) key :
  wf m -> contents m !! key = mlookup m key.
Proof.
  intros [Hp Hr]. destruct (shard_data_lookup m key Hp) as (it & Hit & Hd).
  unfold Model.mlookup, contents. rewrite Hd.
  destruct (data it !! key) as [v|] eqn:Hk.
  - apply lookup_union_list_Some_2 with (data it);
      [|by apply shards_disjoint|done].
    apply list_elem_of_fmap. exists it. split; [done|].
    apply list_elem_of_lookup. eauto.
  - apply lookup_union_list_None_2, Forall_forall. intros d Hin.
    apply list_elem_of_fmap in Hin as (it' & -> & Hin).
    apply list_elem_of_lookup in Hin as [i Hi].
    destruct (data it' !! key) as [v|] eqn:Hk'; [|done].
    pose proof (Hr _ _ key Hi (mk_is_Some _ _ Hk')) as Hidx.
    rewrite Hidx, Nat2Z.id in Hit. congruence.
Qed.

Lemma contents_set_map (m : Map) key value :
  wf m -> contents (set_map m key value) = <[key := value]> (contents m).
Proof.
  intros Hm. apply map_eq. intros key'.
  rewrite lookup_contents by by apply wf_set_map.
  rewrite mlookup_set_map by apply Hm. rewrite lookup_insert.
  rewrite lookup_contents by done.
  destruct (decide (key' = key)), (decide (key = key')); congruence.
Qed.

Lemma contents_del_map (m : Map) key :
  wf m -> contents (del_map m key) = delete key (contents m).
Proof.
  intros Hm. apply map_eq. intros key'.
  rewrite lookup_contents by by apply wf_del_map.
  rewrite mlookup_del_map by apply Hm. rewrite lookup_delete.
  rewrite lookup_contents by done.
  destruct (decide (key' = key)), (decide (key = key')); congruence.
Qed.

Lemma contents_New hint (seed0 : Seed) : contents (New (V:=V) hint seed0) = ∅.
Proof.
  apply map_eq. intros key.
  rewrite lookup_contents by apply wf_New.
  by rewrite mlookup_New, lookup_empty.
Qed.

Lemma size_union_list (ms : list (gmap string V)) :
  map_disjoint_list ms -> size (⋃ ms) = sum_list (size <$> ms).
Proof.
  induction ms as [|d ms IH]; simpl; [done|].
  intros [Hd Hms]%map_disjoint_list_cons.
  rewrite map_size_disj_union by by apply map_disjoint_union_list_r_2.
  by rewrite IH.
Qed.

(** *** [Len] and [Clear] *)

Lemma Len_loop_run {St} (w : @World V St Seed) pre suf count :
  datas (hmap w) = pre ++ suf ->
  Len_loop (Z.of_nat <$> seq (length pre) (length suf)) count w =
    Some (count + Z.of_nat (sum_list ((size ∘ data) <$> suf)), w).
Proof.
  revert pre count. induction suf as [|it suf IH]; intros pre count Hds.
  - simpl. unfold ret. do 2 f_equal. lia.
  - cbn [length seq]. rewrite fmap_cons. cbn [Len_loop]. unfold bind.
    rewrite (shard_at w _ it);
      [|lia|by rewrite Nat2Z.id, Hds, list_lookup_middle].
    specialize (IH (pre ++ [it]) (count + Z.of_nat (size (data it)))).
    rewrite length_app, Nat.add_1_r in IH. rewrite IH.
    + rewrite fmap_cons. cbn [sum_list sum_list_with compose]. unfold id.
      do 2 f_equal. lia.
    + by rewrite <- app_assoc.
Qed.

Lemma Len_run {St} (w : @World V St Seed) :
  wf (hmap w) -> Len w = Some (Z.of_nat (size (contents (hmap w))), w).
Proof.
  intros [_ Hr]. unfold Len, bind, get_map, indices.
  rewrite (Len_loop_run w [] (datas (hmap w))) by done.
  unfold contents. rewrite size_union_list by by apply shards_disjoint.
  by rewrite <- list_fmap_compose.
Qed.

Lemma Clear_loop_run {St} (m : Map) (s : St) pre suf :
  datas m = pre ++ suf ->
  Clear_loop (Z.of_nat <$> seq (length pre) (length suf)) (MkWorld m s) =
    Some (tt, MkWorld
                (MkMap (pre ++ replicate (length suf) (MapItem ∅)) (seed m))
                s).
Proof.
  revert m pre. induction suf as [|it suf IH]; intros m pre Hds.
  - simpl. unfold ret. rewrite app_nil_r in *. destruct m. simpl in *.
    by subst.
  - cbn [length seq]. rewrite fmap_cons. cbn [Clear_loop]. unfold bind.
    rewrite put_data_at
      by (simpl; rewrite Hds, length_app; simpl; lia).
    unfold with_data. simpl. rewrite Nat2Z.id, Hds.
    rewrite insert_app_r_alt, Nat.sub_diag by done. cbn [insert list_insert].
    specialize (IH (MkMap (pre ++ MapItem ∅ :: suf) (seed m))
                   (pre ++ [MapItem ∅])).
    rewrite length_app, Nat.add_1_r in IH. simpl in IH. rewrite IH.
    + by rewrite <- app_assoc.
    + by rewrite <- app_assoc.
Qed.

Lemma Clear_run {St} (w : @World V St Seed) :
  Clear w = Some (tt, MkWorld (cleared (hmap w)) (caller w)).
Proof.
  destruct w as [m s]. unfold Clear, bind, get_map, indices. cbn [hmap].
  by apply (Clear_loop_run m s [] (datas m)).
Qed.

Lemma wf_cleared (m : Map) : wf m -> wf (cleared m).
Proof.
  intros [Hp _]. split.
  - unfold pow2_shards, cleared. simpl. by rewrite length_replicate.
  - intros i it key Hi [v Hv]. unfold cleared in Hi. simpl in Hi.
    apply lookup_replicate in Hi as [-> _]. simpl in Hv.
    by rewrite lookup_empty in Hv.
Qed.

(** C7: [Delete(k)] on an absent key returns false and leaves the map
    as it was, so [Len()] is the same before and after; on a present
    key it removes the entry (and only that entry) and returns true. *)
Theorem Delete_spec {St} (w : @World V St Seed) k :
  wf (hmap w) ->
  exists r w' n n',
    Delete k w = Some (r, w') /\
    wf (hmap w') /\
    Len w = Some (n, w) /\
    Len w' = Some (n', w') /\
    (mlookup (hmap w) k = None -> r = false /\ w' = w /\ n' = n) /\
    (is_Some (mlookup (hmap w) k) ->
       r = true /\
       mlookup (hmap w') k = None /\
       (forall k', k' <> k -> mlookup (hmap w') k' = mlookup (hmap w) k') /\
       n' = n - 1).
Proof.
  intros Hwf. pose proof Hwf as [Hp _]. rewrite Delete_run by done.
  destruct (mlookup (hmap w) k) as [v|] eqn:Hk.
  - eexists true, _, _, _. split; [done|]. simpl.
    split; [by apply wf_del_map|]. split; [by apply Len_run|].
    split; [by apply Len_run, wf_del_map|].
    split; [done|]. intros _. split; [done|].
    split; [by rewrite mlookup_del_map, decide_True|].
    split.
    + intros k' Hne. by rewrite mlookup_del_map, decide_False.
    + simpl. rewrite contents_del_map by done.
      rewrite <- lookup_contents in Hk by done.
      pose proof (map_size_delete_Some k (contents (hmap w))
                    (mk_is_Some _ _ Hk)).
      assert (size (contents (hmap w)) <> 0%nat).
      { intros H0%map_size_empty_iff. by rewrite H0, lookup_empty in Hk. }
      lia.
  - eexists false, w, _, _. split; [done|]. split; [done|].
    split; [by apply Len_run|]. split; [by apply Len_run|].
    split; [done|]. by intros [? ?].
Qed.


(** *** The order of a traversal *)

Local Abbreviation visit_from := (visit_from iter_order).

Lemma elem_of_iter_order i (d : gmap string V) key value :
  (key, value) ∈ iter_order i d <-> d !! key = Some value.
Proof. by rewrite iter_order_perm, elem_of_map_to_list. Qed.

Lemma NoDup_iter_order i (d : gmap string V) : NoDup (iter_order i d).*1.
Proof. rewrite iter_order_perm. apply NoDup_fst_map_to_list. Qed.

Lemma visit_from_nil j : visit_from j [] = [].
Proof. reflexivity. Qed.

Lemma visit_from_cons j it ds :
  visit_from j (it :: ds) =
    iter_order (Z.of_nat j) (data it) ++ visit_from (S j) ds.
Proof. reflexivity. Qed.

Lemma elem_of_visit_from j ds key value :
  (key, value) ∈ visit_from j ds <->
  exists i it, ds !! i = Some it /\ data it !! key = Some value.
Proof.
  revert j. induction ds as [|it ds IH]; intros j.
  - rewrite visit_from_nil, elem_of_nil. split; [done|].
    by intros (i & it & Hi & _).
  - rewrite visit_from_cons, elem_of_app, elem_of_iter_order, IH. split.
    + intros [Hk|(i & it' & Hi & Hk)];
        [by exists 0%nat, it|by exists (S i), it'].
    + intros ([|i] & it' & Hi & Hk).
      * left. by injection Hi as <-.
      * right. by exists i, it'.
Qed.

Lemma elem_of_visit_order (m : Map) key value :
  wf m -> (key, value) ∈ visit_order m <-> mlookup m key = Some value.
Proof.
  intros [Hp Hr]. unfold Model.visit_order. rewrite elem_of_visit_from.
  destruct (shard_data_lookup m key Hp) as (it & Hit & Hd).
  unfold Model.mlookup. rewrite Hd. split.
  - intros (i & it' & Hi & Hk).
    pose proof (Hr _ _ key Hi (mk_is_Some _ _ Hk)) as Hidx.
    rewrite Hidx, Nat2Z.id in Hit. congruence.
  - intros Hk. by exists (Z.to_nat (index_of m key)), it.
Qed.

Lemma sorted_constant {A} (f : A -> Z) c (l : list A) :
  (forall x, x ∈ l -> f x = c) ->
  StronglySorted (fun x y => f x <= f y) l.
Proof.
  induction l as [|a l IH]; intros Hl; constructor.
  - apply IH. intros x Hx. apply Hl. by right.
  - apply Forall_forall. intros y Hy.
    rewrite (Hl a), (Hl y); [lia|by right|by left].
Qed.

(** Every pair the traversal meets is routed to a shard not before the
    one it starts from, and the pairs come in the order of their
    shards, without repetition of a key. *)
Lemma visit_from_routed (m : Map) pre suf key value :
  routed m -> datas m = pre ++ suf ->
  (key, value) ∈ visit_from (length pre) suf ->
  Z.of_nat (length pre) <= index_of m key.
Proof.
  intros Hr Hds (i & it & Hi & Hk)%elem_of_visit_from.
  rewrite (Hr (length pre + i)%nat it key); [lia| |done].
  rewrite Hds, lookup_app_r by lia.
  by replace (length pre + i - length pre)%nat with i by lia.
Qed.

Lemma iter_order_routed (m : Map) pre it suf key value :
  routed m -> datas m = pre ++ it :: suf ->
  (key, value) ∈ iter_order (Z.of_nat (length pre)) (data it) ->
  index_of m key = Z.of_nat (length pre).
Proof.
  intros Hr Hds Hk%elem_of_iter_order.
  apply (Hr (length pre) it key); [|done].
  by rewrite Hds, list_lookup_middle.
Qed.

Lemma visit_from_sorted (m : Map) pre suf :
  routed m -> datas m = pre ++ suf ->
  StronglySorted (fun x y => index_of m x.1 <= index_of m y.1)
                 (visit_from (length pre) suf).
Proof.
  intros Hr. revert pre. induction suf as [|it suf IH]; intros pre Hds.
  - rewrite visit_from_nil. constructor.
  - rewrite visit_from_cons.
    assert (Hds' : datas m = (pre ++ [it]) ++ suf) by by rewrite <- app_assoc.
    specialize (IH (pre ++ [it]) Hds').
    rewrite length_app, Nat.add_1_r in IH.
    apply StronglySorted_app_2; [| |done].
    + intros [k1 v1] [k2 v2] H1 H2. simpl.
      rewrite (iter_order_routed m pre it suf k1 v1) by done.
      pose proof (visit_from_routed m (pre ++ [it]) suf k2 v2 Hr Hds') as Hle.
      rewrite length_app, Nat.add_1_r in Hle. specialize (Hle H2). lia.
    + apply sorted_constant with (Z.of_nat (length pre)).
      intros [k1 v1] H1. by apply (iter_order_routed m pre it suf k1 v1).
Qed.



Lemma NoDup_visit_from (m : Map) pre suf :
  routed m -> datas m = pre ++ suf ->
  NoDup (visit_from (length pre) suf).*1.
Proof.
  intros Hr. revert pre. induction suf as [|it suf IH]; intros pre Hds.
  - rewrite visit_from_nil. constructor.
  - rewrite visit_from_cons, fmap_app.
    assert (Hds' : datas m = (pre ++ [it]) ++ suf) by by rewrite <- app_assoc.
    specialize (IH (pre ++ [it]) Hds').
    rewrite length_app, Nat.add_1_r in IH.
    apply NoDup_app. split; [apply NoDup_iter_order|]. split; [|done].
    intros key ([k1 v1] & -> & H1)%list_elem_of_fmap
               ([k2 v2] & Heq & H2)%list_elem_of_fmap.
    simpl in Heq. subst k2.
    pose proof (iter_order_routed m pre it suf k1 v1 Hr Hds H1).
    pose proof (visit_from_routed m (pre ++ [it]) suf k1 v2 Hr Hds') as Hle.
    rewrite length_app, Nat.add_1_r in Hle. specialize (Hle H2). lia.
Qed.

Lemma NoDup_visit_order (m : Map) : wf m -> NoDup (visit_order m).*1.
Proof. intros [_ Hr]. by apply (NoDup_visit_from m []). Qed.

Lemma visit_order_sorted (m : Map) :
  wf m ->
  StronglySorted (fun x y => index_of m x.1 <= index_of m y.1)
                 (visit_order m).
Proof. intros [_ Hr]. by apply (visit_from_sorted m []). Qed.

Lemma visit_order_contents (m : Map) :
  wf m -> visit_order m ≡ₚ map_to_list (contents m).
Proof.
  intros Hm. apply NoDup_Permutation.
  - eapply NoDup_fmap_1, NoDup_visit_order, Hm.
  - apply NoDup_map_to_list.
  - intros [key value].
    by rewrite elem_of_visit_order, elem_of_map_to_list, lookup_contents.
Qed.


(** *** Deleting a list of keys *)

Local Abbreviation del_keys := (del_keys maphash_String).

Lemma del_keys_cons (m : Map) key dels :
  del_keys m (key :: dels) = del_keys (del_map m key) dels.
Proof. reflexivity. Qed.

Lemma del_keys_app (m : Map) dels1 dels2 :
  del_keys m (dels1 ++ dels2) = del_keys (del_keys m dels1) dels2.
Proof. apply foldl_app. Qed.

Lemma wf_del_keys (m : Map) dels : wf m -> wf (del_keys m dels).
Proof.
  revert m. induction dels as [|key dels IH]; intros m Hm; [done|].
  rewrite del_keys_cons. by apply IH, wf_del_map.
Qed.

Lemma index_of_del_keys (m : Map) dels key :
  index_of (del_keys m dels) key = index_of m key.
Proof.
  revert m. induction dels as [|k dels IH]; intros m; [done|].
  rewrite del_keys_cons, IH. apply index_of_with_data.
Qed.

Lemma mlookup_del_keys (m : Map) dels key :
  pow2_shards m ->
  mlookup (del_keys m dels) key =
    if decide (key ∈ dels) then None else mlookup m key.
Proof.
  revert m. induction dels as [|k dels IH]; intros m Hm.
  - by rewrite decide_False by apply not_elem_of_nil.
  - rewrite del_keys_cons, IH by by apply pow2_shards_with_data.
    rewrite mlookup_del_map by done.
    destruct (decide (key = k)) as [->|Hne].
    + rewrite (decide_True (P := k ∈ k :: dels)) by by left.
      by case_decide.
    + destruct (decide (key ∈ dels)) as [Hin|Hin].
      * by rewrite decide_True by by right.
      * rewrite decide_False; [done|].
        by intros [?|?]%elem_of_cons.
Qed.

Lemma contents_del_keys (m : Map) dels :
  wf m ->
  contents (del_keys m dels) = foldl (fun c key => delete key c) (contents m) dels.
Proof.
  revert m. induction dels as [|k dels IH]; intros m Hm; [done|].
  rewrite del_keys_cons, IH by by apply wf_del_map.
  simpl. by rewrite contents_del_map.
Qed.

(** Deleting keys of one shard leaves the other shards as they are. *)
Lemma datas_del_keys (m : Map) pre it suf dels :
  datas m = pre ++ it :: suf ->
  (forall key, key ∈ dels -> index_of m key = Z.of_nat (length pre)) ->
  exists it', datas (del_keys m dels) = pre ++ it' :: suf.
Proof.
  revert m it. induction dels as [|k dels IH]; intros m it Hds Hk.
  - by exists it.
  - rewrite del_keys_cons.
    apply (IH _ (MapItem (delete k (shard_data m k)))).
    + unfold Model.del_map, with_data. simpl.
      rewrite (Hk k) by by left.
      rewrite Nat2Z.id, Hds, insert_app_r_alt, Nat.sub_diag by done.
      done.
    + intros key Hin. unfold Model.del_map.
      rewrite index_of_with_data. apply Hk. by right.
Qed.

(** *** Facts about [sweep] *)

Lemma sweep_app {St} (f : string -> V -> St -> (bool * option Err) * St)
    l1 l2 s :
  sweep f (l1 ++ l2) s =
    match sweep f l1 s with
    | (dels1, keeps1, Some e, s1) => (dels1, keeps1, Some e, s1)
    | (dels1, keeps1, None, s1) =>
        let '(dels2, keeps2, err, s2) := sweep f l2 s1 in
        (dels1 ++ dels2, keeps1 ++ keeps2, err, s2)
    end.
Proof.
  revert s. induction l1 as [|[k v] l1 IH]; intros s.
  - simpl. by destruct (sweep f l2 s) as [[[? ?] ?] ?].
  - cbn [app sweep]. destruct (f k v s) as [[ok [e|]] s1]; [done|].
    rewrite IH. destruct (sweep f l1 s1) as [[[d1 k1] [e|]] s2].
    + by destruct ok.
    + by destruct ok; cbn iota beta;
        destruct (sweep f l2 s2) as [[[d2 k2] r2] s3].
Qed.

(** The keys a sweep deletes or keeps are keys of pairs it was given,
    each counted once; without an error they are all of them. *)
Lemma sweep_keys {St} (f : string -> V -> St -> (bool * option Err) * St)
    l s dels keeps err s' :
  sweep f l s = (dels, keeps, err, s') ->
  (forall key, key ∈ dels ++ keeps -> key ∈ l.*1) /\
  (err = None -> dels ++ keeps ≡ₚ l.*1).
Proof.
  revert s dels keeps err s'.
  induction l as [|[k v] l IH]; intros s dels keeps err s' Hsw.
  - injection Hsw as <- <- <- <-. split; [by intros ? ?%elem_of_nil|done].
  - cbn [sweep] in Hsw. destruct (f k v s) as [[ok [e|]] s1].
    { injection Hsw as <- <- <- <-. split; [by intros ? ?%elem_of_nil|done]. }
    destruct (sweep f l s1) as [[[d1 k1] r1] s2] eqn:Hrec.
    destruct (IH _ _ _ _ _ Hrec) as [Hin Hperm].
    destruct ok; injection Hsw as <- <- <- <-; cbn [fmap list_fmap fst].
    + split.
      * intros key [->|H]%elem_of_cons; [by left|right; by apply Hin].
      * intros Hnone. simpl. by rewrite Hperm.
    + split.
      * intros key H. rewrite elem_of_app, elem_of_cons in H.
        destruct H as [H|[->|H]]; [|by left|];
          right; apply Hin, elem_of_app; auto.
      * intros Hnone. rewrite <- Permutation_middle. simpl.
        by rewrite Hperm.
Qed.

(** A sweep with a recording predicate does what the sweep does, and
    records every pair when there is no error. *)
Lemma sweep_logged_quiet {St}
    (f : string -> V -> St -> (bool * option Err) * St)
    l s lg dels keeps s' :
  sweep f l s = (dels, keeps, None, s') ->
  sweep (logged f) l (s, lg) = (dels, keeps, None, (s', lg ++ l)).
Proof.
  revert s lg dels keeps.
  induction l as [|[k v] l IH]; intros s lg dels keeps Hsw.
  - injection Hsw as <- <- <-. by rewrite app_nil_r.
  - cbn [sweep] in *. unfold logged at 1.
    destruct (f k v s) as [[ok [e|]] s1]; [done|].
    destruct (sweep f l s1) as [[[d1 k1] r1] s2] eqn:Hrec.
    destruct ok; injection Hsw as <- <- -> <-;
      by rewrite (IH _ (lg ++ [(k, v)]) _ _ Hrec), <- app_assoc.
Qed.

(** A sweep that meets its first error at the pair after [pre]. *)
Lemma sweep_error_at {St}
    (f : string -> V -> St -> (bool * option Err) * St)
    pre k v post s dels keeps s1 b e s2 :
  sweep f pre s = (dels, keeps, None, s1) ->
  f k v s1 = ((b, Some e), s2) ->
  sweep f (pre ++ (k, v) :: post) s = (dels, keeps, Some e, s2).
Proof.
  intros Hpre Hf. rewrite sweep_app, Hpre. cbn [sweep]. rewrite Hf.
  by rewrite !app_nil_r.
Qed.


(** *** [Prune] is a sweep over the traversal *)

Lemma Prune_shard_run {St}
    (f : string -> V -> St -> (bool * option Err) * St)
    i l (m : Map) s delNum nowNum dels keeps err s' :
  pow2_shards m ->
  (forall key value, (key, value) ∈ l -> index_of m key = i) ->
  sweep f l s = (dels, keeps, err, s') ->
  Prune_shard f i l delNum nowNum (MkWorld m s) =
    Some ((delNum + Z.of_nat (length dels),
           nowNum + Z.of_nat (length keeps), err),
          MkWorld (del_keys m dels) s').
Proof.
  revert m s delNum nowNum dels keeps.
  induction l as [|[k v] l IH]; intros m s delNum nowNum dels keeps Hm Hl Hsw.
  - injection Hsw as <- <- <- <-. simpl. unfold ret.
    by rewrite !Z.add_0_r.
  - cbn [sweep] in Hsw. cbn [Prune_shard]. unfold bind, call.
    cbn [caller hmap]. destruct (f k v s) as [[ok [e|]] s1].
    { injection Hsw as <- <- <- <-. simpl. unfold ret.
      by rewrite !Z.add_0_r. }
    destruct (sweep f l s1) as [[[d1 k1] r1] s2] eqn:Hrec.
    assert (Hl' : forall key value, (key, value) ∈ l -> index_of m key = i).
    { intros key value Hin. apply (Hl key value). by right. }
    destruct ok; injection Hsw as <- <- <- <-.
    + rewrite <- (Hl k v) by by left.
      rewrite (remove_run (MkWorld m s1)) by done. cbn [hmap caller].
      rewrite (Hl k v) by by left.
      rewrite (IH (del_map m k) s1 (delNum + 1) nowNum d1 k1);
        [|by apply pow2_shards_with_data| |done].
      * rewrite del_keys_cons.
        by replace (delNum + Z.of_nat (length (k :: d1)))
          with (delNum + 1 + Z.of_nat (length d1)) by (cbn [length]; lia).
      * intros key value Hin. unfold Model.del_map.
        rewrite index_of_with_data. by apply (Hl' key value).
    + rewrite (IH m s1 delNum (nowNum + 1) d1 k1) by done.
      by replace (nowNum + Z.of_nat (length (k :: k1)))
        with (nowNum + 1 + Z.of_nat (length k1)) by (cbn [length]; lia).
Qed.

Lemma Prune_loop_run {St}
    (f : string -> V -> St -> (bool * option Err) * St)
    (m : Map) pre suf s delNum nowNum dels keeps err s' :
  wf m -> datas m = pre ++ suf ->
  sweep f (visit_from (length pre) suf) s = (dels, keeps, err, s') ->
  Prune_loop f (Z.of_nat <$> seq (length pre) (length suf)) delNum nowNum
             (MkWorld m s) =
    Some ((delNum + Z.of_nat (length dels),
           nowNum + Z.of_nat (length keeps), err),
          MkWorld (del_keys m dels) s').
Proof.
  revert m pre s delNum nowNum dels keeps.
  induction suf as [|it suf IH];
    intros m pre s delNum nowNum dels keeps Hm Hds Hsw.
  - rewrite visit_from_nil in Hsw. injection Hsw as <- <- <- <-.
    simpl. unfold ret. by rewrite !Z.add_0_r.
  - cbn [length seq]. rewrite fmap_cons. cbn [Prune_loop]. unfold bind.
    rewrite (shard_at (MkWorld m s) _ it);
      [|lia|by cbn [hmap]; rewrite Nat2Z.id, Hds, list_lookup_middle].
    rewrite visit_from_cons, sweep_app in Hsw.
    destruct (sweep f (iter_order (Z.of_nat (length pre)) (data it)) s)
      as [[[d1 k1] r1] s1] eqn:Hhere.
    pose proof Hm as [Hp Hr].
    assert (Hrouted : forall key value,
               (key, value) ∈ iter_order (Z.of_nat (length pre)) (data it) ->
               index_of m key = Z.of_nat (length pre)).
    { intros key value. by apply iter_order_routed with suf. }
    rewrite (Prune_shard_run f _ _ m s delNum nowNum d1 k1 r1 s1) by done.
    destruct r1 as [e|].
    { by injection Hsw as <- <- <- <-. }
    destruct (sweep f (visit_from (S (length pre)) suf) s1)
      as [[[d2 k2] r2] s2] eqn:Hrest.
    injection Hsw as <- <- <- <-.
    destruct (datas_del_keys m pre it suf d1 Hds) as [it' Hds'].
    { intros key Hin.
      destruct (sweep_keys f _ _ _ _ _ _ Hhere) as [Hsub _].
      assert (Hkey : key ∈ d1 ++ k1) by (apply elem_of_app; by left).
      apply Hsub, list_elem_of_fmap in Hkey as ([k' v'] & -> & Hin').
      by apply (Hrouted k' v'). }
    specialize (IH (del_keys m d1) (pre ++ [it']) s1
                   (delNum + Z.of_nat (length d1))
                   (nowNum + Z.of_nat (length k1)) d2 k2).
    rewrite length_app, Nat.add_1_r in IH.
    rewrite IH; [|by apply wf_del_keys|by rewrite <- app_assoc|done].
    rewrite del_keys_app, !length_app, !Nat2Z.inj_add, !Z.add_assoc.
    done.
Qed.

Lemma Prune_run {St}
    (f : string -> V -> St -> (bool * option Err) * St)
    (m : Map) s dels keeps err s' :
  wf m ->
  sweep f (visit_order m) s = (dels, keeps, err, s') ->
  Prune f (MkWorld m s) =
    Some ((Z.of_nat (length dels), Z.of_nat (length keeps), err),
          MkWorld (del_keys m dels) s').
Proof.
  intros Hm Hsw. unfold Hmap.Prune, bind, get_map, indices. cbn [hmap].
  by apply (Prune_loop_run f m [] (datas m) s 0 0).
Qed.


(** *** Claims about [Prune] *)

Local Abbreviation pure_pred := (pure_pred (Err:=Err)).

(** C4: when the predicate reports an error on some entry, [Prune]
    stops there.  The entries met before it are [pre], the erring entry
    is [(k, v)], what is left of the traversal is [post].  The counts
    returned are those of the deletions and retentions made over [pre],
    the error is returned with them, the predicate has been handed
    [pre] and [(k, v)] and nothing else (so no entry of [post], and no
    entry of a later shard), and the deletions made over [pre] stay in
    the map. *)
Theorem Prune_stops_at_error {St}
    (f : string -> V -> St -> (bool * option Err) * St)
    (m : Map) (s : St) lg pre k v post dels keeps s1 b e s2 :
  wf m ->
  visit_order m = pre ++ (k, v) :: post ->
  sweep f pre s = (dels, keeps, None, s1) ->
  f k v s1 = ((b, Some e), s2) ->
  Prune f (MkWorld m s) =
    Some ((Z.of_nat (length dels), Z.of_nat (length keeps), Some e),
          MkWorld (del_keys m dels) s2) /\
  Prune (logged f) (MkWorld m (s, lg)) =
    Some ((Z.of_nat (length dels), Z.of_nat (length keeps), Some e),
          MkWorld (del_keys m dels) (s2, lg ++ pre ++ [(k, v)])) /\
  dels ++ keeps ≡ₚ pre.*1 /\
  (forall p, p ∈ post -> p ∉ pre ++ [(k, v)]) /\
  (forall key value,
      mlookup m key = Some value -> index_of m k < index_of m key ->
      (key, value) ∉ pre ++ [(k, v)]) /\
  wf (del_keys m dels) /\
  (forall key,
      mlookup (del_keys m dels) key =
        if decide (key ∈ dels) then None else mlookup m key).
Proof.
  intros Hm Hvo Hpre Hf.
  split; [|split; [|split; [|split; [|split; [|split]]]]].
  - apply Prune_run; [done|]. rewrite Hvo. by eapply sweep_error_at.
  - apply Prune_run; [done|]. rewrite Hvo.
    apply sweep_error_at with (s1, lg ++ pre) b.
    + by apply sweep_logged_quiet.
    + unfold logged. by rewrite Hf, <- app_assoc.
  - by apply (sweep_keys f pre s dels keeps None s1).
  - pose proof (NoDup_fmap_1 _ _ (NoDup_visit_order m Hm)) as Hnd.
    rewrite Hvo, cons_middle, app_assoc in Hnd.
    apply NoDup_app in Hnd as (_ & Hdisj & _).
    intros p Hpost Hseen. by apply (Hdisj p).
  - pose proof (visit_order_sorted m Hm) as Hsorted. rewrite Hvo in Hsorted.
    intros key value _ Hlater [Hin|Hin%list_elem_of_singleton]%elem_of_app.
    + pose proof (StronglySorted_app_1_elem_of _ _ _ _ _ Hsorted Hin
                    (list_elem_of_here _ _)) as Hle.
      simpl in Hle. lia.
    + injection Hin as -> ->. lia.
  - by apply wf_del_keys.
  - intros key. apply mlookup_del_keys, Hm.
Qed.

Lemma sweep_pure {St} (p : string -> V -> bool) l (s : St) :
  sweep (pure_pred p) l s =
    ((filter (fun kv => p kv.1 kv.2 = true) l).*1,
     (filter (fun kv => ~ p kv.1 kv.2 = true) l).*1, None, s).
Proof.
  induction l as [|[k v] l IH]; [done|].
  cbn [sweep]. unfold pure_pred at 1. rewrite IH.
  destruct (p k v) eqn:Hp.
  - rewrite filter_cons_True by done.
    by rewrite filter_cons_False by (simpl; rewrite Hp; auto).
  - rewrite filter_cons_False by (simpl; by rewrite Hp).
    by rewrite filter_cons_True by (simpl; by rewrite Hp).
Qed.

Lemma map_to_list_filter (P : string * V -> Prop)
    `{!forall x, Decision (P x)} (c : gmap string V) :
  map_to_list (filter P c) ≡ₚ filter P (map_to_list c).
Proof.
  apply NoDup_Permutation.
  - apply NoDup_map_to_list.
  - apply NoDup_filter, NoDup_map_to_list.
  - intros [key value].
    rewrite elem_of_map_to_list, map_lookup_filter_Some,
      list_elem_of_filter, elem_of_map_to_list.
    tauto.
Qed.

Lemma length_filter_contents (P : string * V -> Prop)
    `{!forall x, Decision (P x)} (m : Map) :
  wf m ->
  length (filter P (visit_order m)) = size (filter P (contents m)).
Proof.
  intros Hm.
  by rewrite <- length_map_to_list, map_to_list_filter,
       (visit_order_contents m Hm).
Qed.

(** C5: for a predicate on pairs that never fails, [Prune] deletes
    exactly the entries that satisfy it and keeps the others, returns
    the number deleted, the number kept and no error, and judges every
    entry once. *)
Theorem Prune_deletes_matching {St} (p : string -> V -> bool)
    (m : Map) (s : St) lg :
  wf m ->
  exists m',
    Prune (pure_pred p) (MkWorld m s) =
      Some ((Z.of_nat (size (filter (fun kv => p kv.1 kv.2 = true)
                                    (contents m))),
             Z.of_nat (size (filter (fun kv => ~ p kv.1 kv.2 = true)
                                    (contents m))),
             None),
            MkWorld m' s) /\
    Prune (logged (pure_pred p)) (MkWorld m (s, lg)) =
      Some ((Z.of_nat (size (filter (fun kv => p kv.1 kv.2 = true)
                                    (contents m))),
             Z.of_nat (size (filter (fun kv => ~ p kv.1 kv.2 = true)
                                    (contents m))),
             None),
            MkWorld m' (s, lg ++ visit_order m)) /\
    visit_order m ≡ₚ map_to_list (contents m) /\
    wf m' /\
    contents m' = filter (fun kv => ~ p kv.1 kv.2 = true) (contents m) /\
    forall key,
      mlookup m' key =
        match mlookup m key with
        | Some value => if p key value then None else Some value
        | None => None
        end.
Proof.
  intros Hm.
  pose proof (sweep_pure (St:=St) p (visit_order m) s) as Hsw.
  exists (del_keys m (filter (fun kv => p kv.1 kv.2 = true) (visit_order m)).*1).
  assert (Hlook : forall key,
    mlookup (del_keys m (filter (fun kv => p kv.1 kv.2 = true)
                                (visit_order m)).*1) key =
      match mlookup m key with
      | Some value => if p key value then None else Some value
      | None => None
      end).
  { intros key. rewrite mlookup_del_keys by apply Hm.
    destruct (mlookup m key) as [value|] eqn:Hk.
    - destruct (p key value) eqn:Hp.
      + rewrite decide_True; [done|]. apply list_elem_of_fmap.
        exists (key, value). split; [done|].
        apply list_elem_of_filter. split; [done|].
        by apply elem_of_visit_order.
      + rewrite decide_False; [done|].
        intros ([k' v'] & -> & [Hp' Hin]%list_elem_of_filter)%list_elem_of_fmap.
        apply elem_of_visit_order in Hin; [|done]. simpl in *. congruence.
    - by case_decide. }
  split; [|split; [|split; [|split; [|split]]]].
  - rewrite (Prune_run _ m s _ _ _ _ Hm Hsw).
    by rewrite !length_fmap, !length_filter_contents.
  - rewrite (Prune_run _ m (s, lg) _ _ _ _ Hm
               (sweep_logged_quiet _ _ _ lg _ _ _ Hsw)).
    by rewrite !length_fmap, !length_filter_contents.
  - by apply visit_order_contents.
  - by apply wf_del_keys.
  - apply map_eq. intros key.
    rewrite lookup_contents by by apply wf_del_keys.
    rewrite Hlook, <- lookup_contents by done.
    destruct (contents m !! key) as [value|] eqn:Hk.
    + destruct (p key value) eqn:Hp; symmetry.
      * apply map_lookup_filter_None. right. intros x Hx. simpl.
        rewrite Hk in Hx. injection Hx as <-. by rewrite Hp; auto.
      * apply map_lookup_filter_Some. split; [done|]. simpl.
        by rewrite Hp.
    + symmetry. apply map_lookup_filter_None. by left.
  - done.
Qed.


(** *** [Range] *)

Lemma logged_visitor_run {St} (f : string -> V -> @M V St Seed bool)
    key value (m : Map) s lg c s' :
  f key value (MkWorld m s) = Some (c, MkWorld m s') ->
  logged_visitor f key value (MkWorld m (s, lg)) =
    Some (c, MkWorld m (s', lg ++ [(key, value, c)])).
Proof. intros Hf. unfold logged_visitor. cbn [hmap caller fst snd]. by rewrite Hf. Qed.

Lemma answers_cons c (k : string) (v : V) lg :
  answers c lg -> answers c ((k, v, true) :: lg).
Proof.
  destruct c; simpl.
  - by constructor.
  - intros (pre & e & -> & He & Hpre).
    exists ((k, v, true) :: pre), e. split; [done|]. split; [done|].
    by constructor.
Qed.

Lemma answers_app c1 c2 (lg1 lg2 : list (string * V * bool)) :
  answers true lg1 -> answers c2 lg2 -> c1 = c2 -> answers c1 (lg1 ++ lg2).
Proof.
  intros H1 H2 ->. destruct c2; simpl in *.
  - by apply Forall_app.
  - destruct H2 as (pre & e & -> & He & Hpre).
    exists (lg1 ++ pre), e. split; [by rewrite app_assoc|].
    split; [done|]. by apply Forall_app.
Qed.

Lemma Range_visit_run {St} (f : string -> V -> @M V St Seed bool)
    l (m : Map) s lg :
  reads_only f ->
  exists c s' lg',
    Range_visit f l (MkWorld m s) = Some (c, MkWorld m s') /\
    Range_visit (logged_visitor f) l (MkWorld m (s, lg)) =
      Some (c, MkWorld m (s', lg ++ lg')) /\
    lg'.*1 `prefix_of` l /\
    answers c lg' /\
    (c = true -> lg'.*1 = l).
Proof.
  intros Hf. revert s lg. induction l as [|[k v] l IH]; intros s lg.
  - exists true, s, []. rewrite app_nil_r. repeat split; try done.
    by constructor.
  - destruct (Hf k v (MkWorld m s)) as (c0 & s0 & Hrun).
    cbn [hmap] in Hrun. cbn [Range_visit]. unfold bind.
    rewrite Hrun, (logged_visitor_run f k v m s lg c0 s0 Hrun).
    destruct c0; cbn [negb].
    + destruct (IH s0 (lg ++ [(k, v, true)]))
        as (c & s' & lg' & H1 & H2 & Hpre & Hans & Hall).
      exists c, s', ((k, v, true) :: lg'). rewrite H1, H2.
      rewrite <- app_assoc. split; [done|]. split; [done|].
      split; [by apply prefix_cons|]. split; [by apply answers_cons|].
      intros Hc. cbn [fmap list_fmap]. by rewrite <- (Hall Hc).
    + exists false, s0, [(k, v, false)]. split; [done|]. split; [done|].
      split; [by exists l|]. split; [|done].
      exists [], (k, v, false). split; [done|]. split; [done|constructor].
Qed.

Lemma Range_loop_run {St} (f : string -> V -> @M V St Seed bool)
    (m : Map) pre suf s lg :
  reads_only f -> datas m = pre ++ suf ->
  exists c s' lg',
    Range_loop f (Z.of_nat <$> seq (length pre) (length suf)) (MkWorld m s) =
      Some (tt, MkWorld m s') /\
    Range_loop (logged_visitor f)
               (Z.of_nat <$> seq (length pre) (length suf))
               (MkWorld m (s, lg)) =
      Some (tt, MkWorld m (s', lg ++ lg')) /\
    lg'.*1 `prefix_of` visit_from (length pre) suf /\
    answers c lg' /\
    (c = true -> lg'.*1 = visit_from (length pre) suf).
Proof.
  intros Hf. revert pre s lg. induction suf as [|it suf IH]; intros pre s lg Hds.
  - exists true, s, []. rewrite app_nil_r. repeat split; try done.
    by constructor.
  - cbn [length seq]. rewrite fmap_cons. cbn [Range_loop]. unfold bind.
    rewrite (shard_at (MkWorld m s) _ it);
      [|lia|by cbn [hmap]; rewrite Nat2Z.id, Hds, list_lookup_middle].
    rewrite (shard_at (MkWorld m (s, lg)) _ it);
      [|lia|by cbn [hmap]; rewrite Nat2Z.id, Hds, list_lookup_middle].
    destruct (Range_visit_run f
                (iter_order (Z.of_nat (length pre)) (data it)) m s lg Hf)
      as (c1 & s1 & lg1 & H1 & H2 & Hpre1 & Hans1 & Hall1).
    rewrite H1, H2, visit_from_cons. destruct c1.
    + specialize (IH (pre ++ [it]) s1 (lg ++ lg1)).
      rewrite length_app, Nat.add_1_r in IH.
      destruct IH as (c & s' & lg' & H3 & H4 & Hpre & Hans & Hall);
        [by rewrite <- app_assoc|].
      exists c, s', (lg1 ++ lg'). rewrite H3, H4, <- app_assoc.
      split; [done|]. split; [done|]. rewrite fmap_app, (Hall1 eq_refl).
      split; [by apply prefix_app|].
      split; [by apply (answers_app c c)|].
      intros Hc. by rewrite (Hall Hc).
    + exists false, s1, lg1. split; [done|]. split; [done|].
      split; [by apply prefix_app_r|]. by split.
Qed.

(** Whatever the visitor does, [Range] itself writes nothing: a
    property of the world that every call of the visitor preserves
    holds at the end if it held at the start. *)
Lemma Range_visit_invariant {St} (f : string -> V -> @M V St Seed bool)
    (P : @World V St Seed -> Prop) l w c w' :
  (forall key value w0 r w1,
      P w0 -> f key value w0 = Some (r, w1) -> P w1) ->
  P w -> Range_visit f l w = Some (c, w') -> P w'.
Proof.
  intros Hf. revert w. induction l as [|[k v] l IH]; intros w Hw Hrun.
  - by injection Hrun as <- <-.
  - cbn [Range_visit] in Hrun. unfold bind in Hrun.
    destruct (f k v w) as [[c0 w0]|] eqn:Hcall; [|done].
    pose proof (Hf _ _ _ _ _ Hw Hcall) as Hw0.
    destruct c0; cbn [negb] in Hrun; [by eapply IH|].
    by injection Hrun as <- <-.
Qed.

Lemma Range_loop_invariant {St} (f : string -> V -> @M V St Seed bool)
    (P : @World V St Seed -> Prop) ixs w w' :
  (forall key value w0 r w1,
      P w0 -> f key value w0 = Some (r, w1) -> P w1) ->
  P w -> Range_loop f ixs w = Some (tt, w') -> P w'.
Proof.
  intros Hf. revert w. induction ixs as [|i ixs IH]; intros w Hw Hrun.
  - by injection Hrun as <-.
  - cbn [Range_loop] in Hrun. unfold bind, shard in Hrun.
    destruct (i <? 0); [done|].
    destruct (datas (hmap w) !! Z.to_nat i) as [it|]; [|done].
    destruct (Range_visit f (iter_order i (data it)) w) as [[c w0]|] eqn:Hv;
      [|done].
    pose proof (Range_visit_invariant f P _ _ _ _ Hf Hw Hv) as Hw0.
    destruct c; [by eapply IH|]. by injection Hrun as <-.
Qed.

Lemma Range_invariant {St} (f : string -> V -> @M V St Seed bool)
    (P : @World V St Seed -> Prop) w w' :
  (forall key value w0 r w1,
      P w0 -> f key value w0 = Some (r, w1) -> P w1) ->
  P w -> Range f w = Some (tt, w') -> P w'.
Proof.
  intros Hf Hw Hrun. unfold Hmap.Range, bind, get_map in Hrun.
  by eapply Range_loop_invariant.
Qed.

(** *** Traversals with a visitor that may write the map *)

Lemma Range_visit_total {St} (f : string -> V -> @M V St Seed bool)
    (P : @World V St Seed -> Prop) l w :
  (forall key value w0,
      P w0 -> exists c w1, f key value w0 = Some (c, w1) /\ P w1) ->
  P w -> exists c w', Range_visit f l w = Some (c, w') /\ P w'.
Proof.
  intros Hf. revert w. induction l as [|[k v] l IH]; intros w Hw.
  - by exists true, w.
  - destruct (Hf k v w Hw) as (c0 & w0 & Hcall & Hw0).
    cbn [Range_visit]. unfold bind. rewrite Hcall.
    destruct c0; cbn [negb]; [by apply IH|by exists false, w0].
Qed.

Local Abbreviation traversal := (traversal iter_order).

Lemma logged_visitor_call {St} (f : string -> V -> @M V St Seed bool)
    key value (w : @World V St Seed) lg c w1 :
  f key value w = Some (c, w1) ->
  logged_visitor f key value (with_log w lg) =
    Some (c, with_log w1 (lg ++ [(key, value, c)])).
Proof.
  intros Hf. destruct w as [m s]. unfold logged_visitor, with_log.
  cbn [hmap caller fst snd]. by rewrite Hf.
Qed.

Lemma replay_app {St} (f : string -> V -> @M V St Seed bool)
    lg1 lg2 (w w1 w2 : @World V St Seed) :
  replay f lg1 w = Some w1 -> replay f lg2 w1 = Some w2 ->
  replay f (lg1 ++ lg2) w = Some w2.
Proof.
  revert w. induction lg1 as [|[[k v] c] lg1 IH]; intros w H1 H2.
  - injection H1 as ->. exact H2.
  - cbn [app replay] in *. destruct (f k v w) as [[c' w0]|]; [|done].
    destruct (Bool.eqb c' c); [by apply IH|done].
Qed.

Lemma replay_quiet {St} (f : string -> V -> @M V St Seed bool)
    lg (w w' : @World V St Seed) :
  quiet f -> replay f lg w = Some w' -> hmap w' = hmap w.
Proof.
  intros Hf. revert w. induction lg as [|[[k v] c] lg IH]; intros w Hre.
  - by injection Hre as ->.
  - cbn [replay] in Hre. destruct (f k v w) as [[c' w0]|] eqn:Hcall; [|done].
    destruct (Bool.eqb c' c); [|done].
    rewrite (IH w0 Hre). by eapply Hf.
Qed.

(** The calls made for one snapshot [l], whatever the visitor does. *)
Lemma Range_visit_trace {St} (f : string -> V -> @M V St Seed bool)
    l (w : @World V St Seed) c w1 lg0 :
  Range_visit f l w = Some (c, w1) ->
  exists lg1,
    Range_visit (logged_visitor f) l (with_log w lg0) =
      Some (c, with_log w1 (lg0 ++ lg1)) /\
    replay f lg1 w = Some w1 /\
    lg1.*1 `prefix_of` l /\
    answers c lg1 /\
    (c = true -> lg1.*1 = l).
Proof.
  revert w lg0. induction l as [|[k v] l IH]; intros w lg0 Hrun.
  - injection Hrun as <- <-. exists []. rewrite app_nil_r.
    repeat split; try done. by constructor.
  - cbn [Range_visit] in *. unfold bind in *.
    destruct (f k v w) as [[c0 w0]|] eqn:Hcall; [|done].
    rewrite (logged_visitor_call f k v w lg0 c0 w0 Hcall).
    destruct c0; cbn [negb] in *.
    + destruct (IH w0 (lg0 ++ [(k, v, true)]) Hrun)
        as (lg1 & H2 & Hre & Hpre & Hans & Hall).
      exists ((k, v, true) :: lg1). rewrite H2, <- app_assoc.
      split; [done|].
      split; [cbn [replay]; rewrite Hcall; exact Hre|].
      split; [by apply prefix_cons|]. split; [by apply answers_cons|].
      intros Hc. cbn [fmap list_fmap]. by rewrite <- (Hall Hc).
    + injection Hrun as <- <-. exists [(k, v, false)].
      split; [done|]. split; [cbn [replay]; by rewrite Hcall|].
      split; [by exists l|]. split; [|done].
      exists [], (k, v, false). split; [done|]. split; [done|constructor].
Qed.

(** The calls made for the shards from [j] on, whatever the visitor
    does. *)
Lemma Range_loop_trace {St} (f : string -> V -> @M V St Seed bool) k :
  forall j (w w' : @World V St Seed) lg0,
    Range_loop f (Z.of_nat <$> seq j k) w = Some (tt, w') ->
    exists lg,
      Range_loop (logged_visitor f) (Z.of_nat <$> seq j k) (with_log w lg0) =
        Some (tt, with_log w' (lg0 ++ lg)) /\
      traversal f j k w lg w'.
Proof.
  induction k as [|k IH]; intros j w w' lg0 Hrun.
  - injection Hrun as <-. exists []. rewrite app_nil_r.
    split; [done|constructor].
  - cbn [seq] in *. rewrite fmap_cons in *. cbn [Range_loop] in *.
    unfold bind, shard in *. cbn [with_log hmap].
    destruct (Z.of_nat j <? 0); [done|]. rewrite Nat2Z.id in *.
    destruct (datas (hmap w) !! j) as [it|] eqn:Hit; [|done].
    destruct (Range_visit f (iter_order (Z.of_nat j) (data it)) w)
      as [[c w1]|] eqn:Hv; [|done].
    destruct (Range_visit_trace f _ w c w1 lg0 Hv)
      as (lg1 & Hlog1 & Hre1 & Hpre1 & Hans1 & Hall1).
    rewrite Hlog1. destruct c.
    + destruct (IH (S j) w1 w' (lg0 ++ lg1) Hrun) as (lg2 & Hlog2 & Htrav).
      exists (lg1 ++ lg2). rewrite Hlog2, <- app_assoc. split; [done|].
      by apply (traversal_shard _ f j k w it lg1 w1 lg2 w');
        [|apply Hall1| | |].
    + injection Hrun as <-. exists lg1. split; [done|].
      by apply (traversal_stop _ f j k w it lg1 w1).
Qed.

(** [Range] itself writes nothing: the world at the end of a traversal
    is the one the calls of the visitor lead to. *)
Lemma traversal_replay {St} (f : string -> V -> @M V St Seed bool)
    j k (w : @World V St Seed) lg w' :
  traversal f j k w lg w' -> replay f lg w = Some w'.
Proof.
  induction 1 as [j w|j k w it lg1 w1 lg2 w' _ _ _ Hre _ IH|
                  j k w it lg1 w' _ _ _ Hre]; [done| |done].
  by apply (replay_app f lg1 lg2 w w1 w').
Qed.

(** Every answer is [true], but for the last one of a traversal that
    the visitor stopped. *)
Lemma traversal_answers {St} (f : string -> V -> @M V St Seed bool)
    j k (w : @World V St Seed) lg w' :
  traversal f j k w lg w' ->
  Forall (fun e => e.2 = true) lg \/ answers false lg.
Proof.
  induction 1 as [j w|j k w it lg1 w1 lg2 w' _ _ Hans _ _ IH|
                  j k w it lg1 w' _ _ Hans _].
  - left. constructor.
  - destruct IH as [IH|IH].
    + left. apply Forall_app. by split.
    + right. by apply (answers_app false false).
  - by right.
Qed.

(** With a visitor that leaves the map alone, the snapshots are the
    shards of the map [Range] was called on. *)
Lemma traversal_quiet {St} (f : string -> V -> @M V St Seed bool)
    j k (w : @World V St Seed) lg w' :
  quiet f -> traversal f j k w lg w' ->
  forall pre suf,
    datas (hmap w) = pre ++ suf -> length pre = j -> length suf = k ->
    lg.*1 `prefix_of` visit_from j suf /\
    (Forall (fun e => e.2 = true) lg -> lg.*1 = visit_from j suf).
Proof.
  intros Hf.
  induction 1 as [j w|j k w it lg1 w1 lg2 w' Hit Hall Hans Hre _ IH|
                  j k w it lg1 w' Hit Hpre Hans Hre];
    intros pre suf Hds Hj Hk.
  - destruct suf; [|done]. by split.
  - destruct suf as [|it' suf]; [done|].
    assert (it' = it) as ->.
    { rewrite Hds, <- Hj, list_lookup_middle in Hit by done. congruence. }
    rewrite visit_from_cons, fmap_app, Hall.
    destruct (IH (pre ++ [it]) suf) as [IHpre IHall].
    + rewrite (replay_quiet f lg1 w w1 Hf Hre), Hds. by rewrite <- app_assoc.
    + rewrite length_app. cbn [length]. lia.
    + cbn [length] in Hk. lia.
    + split; [by apply prefix_app|].
      intros [_ H2]%Forall_app. by rewrite (IHall H2).
  - destruct suf as [|it' suf]; [done|].
    assert (it' = it) as ->.
    { rewrite Hds, <- Hj, list_lookup_middle in Hit by done. congruence. }
    rewrite visit_from_cons. split; [by apply prefix_app_r|].
    intros Htrue. destruct Hans as (p & e & -> & He & _).
    apply Forall_app in Htrue as [_ Htrue].
    apply Forall_cons in Htrue as [Htrue _]. congruence.
Qed.

(** The traversal returns when every call of the visitor does and the
    shard table keeps its length. *)
Lemma Range_loop_total {St} (f : string -> V -> @M V St Seed bool)
    (P : @World V St Seed -> Prop) (n : nat) :
  (forall w0, P w0 -> length (datas (hmap w0)) = n) ->
  (forall key value w0,
      P w0 -> exists c w1, f key value w0 = Some (c, w1) /\ P w1) ->
  forall k j w,
    (j + k)%nat = n -> P w ->
    exists w', Range_loop f (Z.of_nat <$> seq j k) w = Some (tt, w') /\ P w'.
Proof.
  intros Hlen Hf. induction k as [|k IH]; intros j w Hjk Hw.
  - by exists w.
  - cbn [seq]. rewrite fmap_cons. cbn [Range_loop]. unfold bind.
    destruct (lookup_lt_is_Some_2 (datas (hmap w)) j) as [it Hit];
      [rewrite (Hlen w Hw); lia|].
    rewrite (shard_at w _ it); [|lia|by rewrite Nat2Z.id].
    destruct (Range_visit_total f P
                (iter_order (Z.of_nat j) (data it)) w Hf Hw)
      as (c & w1 & Hv & Hw1).
    rewrite Hv. destruct c; [|by exists w1].
    apply IH; [lia|done].
Qed.

Lemma answers_tail c (k : string) (v : V) lg :
  answers c ((k, v, true) :: lg) -> answers c lg.
Proof.
  destruct c; simpl.
  - by intros [_ H]%Forall_cons.
  - intros (pre & e & Hlg & He & Hpre). destruct pre as [|e' pre].
    + injection Hlg as <- _. done.
    + injection Hlg as _ ->. apply Forall_cons in Hpre as [_ Hpre].
      by exists pre, e.
Qed.

Lemma answers_stop c (k : string) (v : V) lg :
  answers c ((k, v, false) :: lg) -> c = false /\ lg = [].
Proof.
  destruct c; simpl.
  - by intros [? _]%Forall_cons.
  - intros (pre & e & Hlg & He & Hpre). split; [done|].
    destruct pre as [|e' pre]; [by injection Hlg as _ <-|].
    injection Hlg as <- _. by apply Forall_cons in Hpre as [? _].
Qed.

(** The calls made for one snapshot are determined by the snapshot,
    the visitor and the world. *)
Lemma replay_unique {St} (f : string -> V -> @M V St Seed bool)
    l (w : @World V St Seed) a b wa wb ca cb :
  replay f a w = Some wa -> replay f b w = Some wb ->
  a.*1 `prefix_of` l -> b.*1 `prefix_of` l ->
  answers ca a -> answers cb b ->
  (ca = true -> a.*1 = l) -> (cb = true -> b.*1 = l) ->
  a = b /\ wa = wb /\ ca = cb.
Proof.
  revert w a b. induction l as [|[k v] l IH];
    intros w a b Ha Hb Hpa Hpb Hansa Hansb Halla Hallb.
  - apply prefix_nil_inv, fmap_nil_inv in Hpa as ->.
    apply prefix_nil_inv, fmap_nil_inv in Hpb as ->.
    injection Ha as <-. injection Hb as <-.
    destruct ca, cb; try done.
    + by destruct Hansb as ([|??] & ? & ? & _).
    + by destruct Hansa as ([|??] & ? & ? & _).
  - destruct a as [|[[ka va] c1] a].
    { destruct ca; [by specialize (Halla eq_refl)|].
      by destruct Hansa as ([|??] & ? & ? & _). }
    destruct b as [|[[kb vb] c2] b].
    { destruct cb; [by specialize (Hallb eq_refl)|].
      by destruct Hansb as ([|??] & ? & ? & _). }
    cbn [fmap list_fmap fst] in Hpa, Hpb, Halla, Hallb.
    pose proof (prefix_cons_inv_1 _ _ _ _ Hpa) as Hka. injection Hka as -> ->.
    pose proof (prefix_cons_inv_1 _ _ _ _ Hpb) as Hkb. injection Hkb as -> ->.
    apply prefix_cons_inv_2 in Hpa, Hpb.
    cbn [replay] in Ha, Hb.
    destruct (f k v w) as [[c0 w0]|]; [|done].
    destruct (Bool.eqb c0 c1) eqn:E1; [|done].
    destruct (Bool.eqb c0 c2) eqn:E2; [|done].
    apply Bool.eqb_prop in E1, E2. subst c1 c2. destruct c0.
    + destruct (IH w0 a b Ha Hb Hpa Hpb (answers_tail _ _ _ _ Hansa)
                  (answers_tail _ _ _ _ Hansb)) as (-> & -> & ->).
      * intros Hc. specialize (Halla Hc). by injection Halla.
      * intros Hc. specialize (Hallb Hc). by injection Hallb.
      * done.
    + apply answers_stop in Hansa as [-> ->].
      apply answers_stop in Hansb as [-> ->].
      injection Ha as <-. by injection Hb as <-.
Qed.

(** A traversal by snapshots is determined by the visitor and the
    world it starts from. *)
Lemma traversal_unique {St} (f : string -> V -> @M V St Seed bool)
    j k (w : @World V St Seed) lg w' :
  traversal f j k w lg w' ->
  forall lg2 w2, traversal f j k w lg2 w2 -> lg2 = lg /\ w2 = w'.
Proof.
  induction 1 as [j w|j k w it lg1 w1 lg2 w' Hit Hall Hans Hre _ IH|
                  j k w it lg1 w' Hit Hpre Hans Hre];
    intros lg3 w3 H3.
  - by inversion H3.
  - inversion H3 as [|j' k' w0 it' lg1' w1' lg2' w2' Hit' Hall' Hans' Hre' Hrest|
                      j' k' w0 it' lg1' w2' Hit' Hpre' Hans' Hre']; subst.
    + rewrite Hit in Hit'. injection Hit' as <-.
      destruct (replay_unique f (iter_order (Z.of_nat j) (data it)) w
                  lg1 lg1' w1 w1' true true Hre Hre')
        as (<- & <- & _); [by rewrite Hall|by rewrite Hall'|done..|].
      by destruct (IH _ _ Hrest) as [-> ->].
    + rewrite Hit in Hit'. injection Hit' as <-.
      by destruct (replay_unique f (iter_order (Z.of_nat j) (data it)) w
                     lg1 lg3 w1 w3 true false Hre Hre')
        as (_ & _ & ?); [by rewrite Hall|..].
  - inversion H3 as [|j' k' w0 it' lg1' w1' lg2' w2' Hit' Hall' Hans' Hre' Hrest|
                      j' k' w0 it' lg1' w2' Hit' Hpre' Hans' Hre']; subst.
    + rewrite Hit in Hit'. injection Hit' as <-.
      by destruct (replay_unique f (iter_order (Z.of_nat j) (data it)) w
                     lg1 lg1' w' w1' false true Hre Hre')
        as (_ & _ & ?); [|by rewrite Hall'|..].
    + rewrite Hit in Hit'. injection Hit' as <-.
      by destruct (replay_unique f (iter_order (Z.of_nat j) (data it)) w
                     lg1 lg3 w' w3 false false Hre Hre')
        as (<- & <- & _).
Qed.

(** When every answer is [true], the pairs handed over begin with all
    the pairs of the first snapshot. *)
Lemma traversal_first_shard {St} (f : string -> V -> @M V St Seed bool)
    j k (w : @World V St Seed) lg w' it :
  traversal f j (S k) w lg w' ->
  datas (hmap w) !! j = Some it ->
  Forall (fun e => e.2 = true) lg ->
  iter_order (Z.of_nat j) (data it) `prefix_of` lg.*1.
Proof.
  intros H Hit Htrue.
  inversion H as [|j' k' w0 it' lg1 w1 lg2 w2 Hit' Hall _ _ _|
                  j' k' w0 it' lg1 w2 _ _ Hans _]; subst.
  - rewrite Hit in Hit'. injection Hit' as <-.
    rewrite fmap_app, Hall. by apply prefix_app_r.
  - destruct Hans as (p & e & -> & He & _).
    apply Forall_app in Htrue as [_ Htrue].
    apply Forall_cons in Htrue as [Htrue _]. congruence.
Qed.

(** C8: for every visitor [f], one that writes the map included.
    What [Range(f)] has done when it returns is a traversal by
    snapshots: shard after shard, [f] is handed the pairs of the
    dictionary the shard holds when it is reached, each of its keys
    once, also the keys that [f] deletes while the shard is gone
    through; all the pairs of a shard when every answer is [true], and
    no further pair, of that shard or a later one, after an answer
    [false]; no other record of calls fits this description.  [Range]
    writes nothing itself: the world at the end is the one the calls of
    [f] lead to, so that with a visitor that leaves the map alone the
    map is unchanged, and the pairs handed over are those of the map,
    every key present exactly once when no answer is [false].  [Range]
    returns whenever every call of the visitor returns and keeps a
    property of the world that fixes the shard count. *)
Theorem Range_spec {St} (f : string -> V -> @M V St Seed bool)
    (w : @World V St Seed) :
  (forall w',
      Range f w = Some (tt, w') ->
      exists lg,
        Range (logged_visitor f) (with_log w []) =
          Some (tt, with_log w' lg) /\
        traversal f 0 (length (datas (hmap w))) w lg w' /\
        (forall lg2 w2,
            traversal f 0 (length (datas (hmap w))) w lg2 w2 ->
            lg2 = lg /\ w2 = w') /\
        replay f lg w = Some w' /\
        (Forall (fun e => e.2 = true) lg \/ answers false lg) /\
        (quiet f ->
           hmap w' = hmap w /\
           lg.*1 `prefix_of` visit_order (hmap w) /\
           (Forall (fun e => e.2 = true) lg ->
              lg.*1 = visit_order (hmap w)))) /\
  (forall (P : @World V St Seed -> Prop),
      (forall w0,
          P w0 -> length (datas (hmap w0)) = length (datas (hmap w))) ->
      (forall key value w0,
          P w0 -> exists c w1, f key value w0 = Some (c, w1) /\ P w1) ->
      P w ->
      exists w', Range f w = Some (tt, w') /\ P w') /\
  (forall i d,
      NoDup (iter_order i d).*1 /\
      forall key value,
        (key, value) ∈ iter_order i d <-> d !! key = Some value) /\
  (wf (hmap w) ->
     NoDup (visit_order (hmap w)).*1 /\
     forall key value,
       (key, value) ∈ visit_order (hmap w) <->
       mlookup (hmap w) key = Some value).
Proof.
  split; [|split; [|split]].
  - intros w' Hrun. unfold Hmap.Range, bind, get_map, indices in *.
    cbn [with_log hmap].
    destruct (Range_loop_trace f _ 0%nat w w' [] Hrun) as (lg & Hlog & Htrav).
    exists lg. split; [exact Hlog|]. split; [exact Htrav|].
    split; [by apply traversal_unique|].
    pose proof (traversal_replay f _ _ _ _ _ Htrav) as Hre.
    split; [exact Hre|]. split; [by eapply traversal_answers|].
    intros Hq. split; [by eapply replay_quiet|].
    by apply (traversal_quiet f _ _ _ _ _ Hq Htrav [] (datas (hmap w))).
  - intros P Hlen Hf Hw. unfold Hmap.Range, bind, get_map, indices.
    by apply (Range_loop_total f P (length (datas (hmap w))) Hlen Hf).
  - intros i d. split; [apply NoDup_iter_order|].
    intros key value. apply elem_of_iter_order.
  - intros Hwf. split; [by apply NoDup_visit_order|].
    intros key value. by apply elem_of_visit_order.
Qed.


(** *** Sequences of calls *)

Local Abbreviation exec := (exec zeroV maphash_String iter_order).
Local Abbreviation run := (run zeroV maphash_String iter_order).

(** On a well-formed map no call panics, the map stays well formed, and
    a call that does not clobber a key leaves its entry alone. *)
Lemma exec_run {St} (o : @op V St Err) (w : @World V St Seed) :
  wf (hmap w) ->
  exists w',
    exec o w = Some (tt, w') /\
    wf (hmap w') /\
    forall key value,
      ~ clobbers key o ->
      mlookup (hmap w) key = Some value ->
      mlookup (hmap w') key = Some value.
Proof.
  intros Hwf. pose proof Hwf as [Hp _].
  destruct o as [k v|k v|k|k d|k|k delIf| | |f]; cbn [Model.exec clobbers];
    unfold bind.
  - rewrite Set_run by done. eexists. split; [done|]. cbn [hmap].
    split; [by apply wf_set_map|]. intros key value Hne Hk.
    rewrite mlookup_set_map by done. rewrite decide_False; [done|].
    by intros ->.
  - rewrite SetWithNotExist_run by done.
    destruct (mlookup (hmap w) k) as [old|] eqn:Hold.
    + by exists w.
    + eexists. split; [done|]. cbn [hmap].
      split; [by apply wf_set_map|]. intros key value _ Hk.
      rewrite mlookup_set_map by done. rewrite decide_False; [done|].
      intros ->. congruence.
  - rewrite Get_run by done. by exists w.
  - rewrite GetWithDefault_run by done. by exists w.
  - rewrite Delete_run by done.
    destruct (mlookup (hmap w) k) as [old|] eqn:Hold.
    + eexists. split; [done|]. cbn [hmap].
      split; [by apply wf_del_map|]. intros key value Hne Hk.
      rewrite mlookup_del_map by done. rewrite decide_False; [done|].
      by intros ->.
    + by exists w.
  - rewrite DeleteIf_run by done.
    destruct (mlookup (hmap w) k) as [old|] eqn:Hold.
    + destruct (delIf old (caller w)) as [[] s].
      * eexists. split; [done|]. cbn [hmap].
        split; [by apply wf_del_map|]. intros key value Hne Hk.
        rewrite mlookup_del_map by done. rewrite decide_False; [done|].
        by intros ->.
      * eexists. split; [done|]. by cbn [hmap].
    + by exists w.
  - rewrite Len_run by done. by exists w.
  - rewrite Clear_run. eexists. split; [done|]. cbn [hmap].
    split; [by apply wf_cleared|]. by intros key value [].
  - destruct w as [m s]. cbn [hmap] in *.
    destruct (sweep f (visit_order m) s) as [[[dels keeps] err] s'] eqn:Hsw.
    rewrite (Prune_run f m s dels keeps err s' Hwf Hsw).
    eexists. split; [done|]. cbn [hmap].
    split; [by apply wf_del_keys|]. by intros key value [].
Qed.

Lemma run_app {St} (ops1 ops2 : list (@op V St Err)) (w : @World V St Seed) :
  run (ops1 ++ ops2) w = bind (run ops1) (fun _ => run ops2) w.
Proof.
  revert w. induction ops1 as [|o ops1 IH]; intros w; [done|].
  cbn [app Model.run]. unfold bind.
  destruct (exec o w) as [[[] w1]|]; [|done]. by rewrite IH.
Qed.

Lemma run_run {St} (ops : list (@op V St Err)) (w : @World V St Seed) :
  wf (hmap w) ->
  exists w',
    run ops w = Some (tt, w') /\
    wf (hmap w') /\
    forall key value,
      Forall (fun o => ~ clobbers key o) ops ->
      mlookup (hmap w) key = Some value ->
      mlookup (hmap w') key = Some value.
Proof.
  revert w. induction ops as [|o ops IH]; intros w Hwf.
  - by exists w.
  - destruct (exec_run o w Hwf) as (w1 & Hexec & Hwf1 & Hkeep1).
    destruct (IH w1 Hwf1) as (w' & Hrun & Hwf' & Hkeep).
    exists w'. cbn [Model.run]. unfold bind. rewrite Hexec.
    split; [done|]. split; [done|].
    intros key value [Ho Hops]%Forall_cons Hk.
    by apply Hkeep, Hkeep1.
Qed.

(** C1: take any map built by [New] and used in any way; after
    [Set(k, v)], and after any further calls that do not overwrite or
    remove the entry of [k], [Get(k)] returns [(v, true)]. *)
Theorem Set_then_Get {St} hint (seed0 : Seed) (s : St)
    (before after : list (@op V St Err)) k v :
  Forall (fun o => ~ clobbers k o) after ->
  exists w',
    run (before ++ OSet k v :: after) (MkWorld (New hint seed0) s)
      = Some (tt, w') /\
    Get k w' = Some ((v, true), w').
Proof.
  intros Hafter.
  destruct (run_run before (MkWorld (New hint seed0) s) (wf_New _ _))
    as (w1 & Hrun1 & Hwf1 & _).
  destruct (exec_run (OSet k v) w1 Hwf1) as (w2 & Hexec & Hwf2 & _).
  destruct (run_run after w2 Hwf2) as (w' & Hrun2 & Hwf' & Hkeep).
  exists w'. split.
  - rewrite run_app. unfold bind. rewrite Hrun1. cbn [Model.run].
    unfold bind. by rewrite Hexec.
  - rewrite Get_run by apply Hwf'.
    rewrite (Hkeep k v Hafter); [done|].
    cbn [Model.exec] in Hexec. rewrite Set_run in Hexec by apply Hwf1.
    injection Hexec as <-. cbn [hmap].
    rewrite mlookup_set_map by apply Hwf1. by rewrite decide_True.
Qed.

(** C2: on a key present with value [old], [SetWithNotExist(k, v)]
    returns [(old, false)] and leaves the map unchanged; on an absent
    key it inserts [v], returns [(v, true)] and leaves the other keys
    alone.  In particular, after that first call a second
    [SetWithNotExist(k, v2)], for any [v2] and so for [v2] different
    from [v], returns [(v, false)] and [Get(k)] still yields [v]. *)
Theorem SetWithNotExist_spec {St} (w : @World V St Seed) k v :
  wf (hmap w) ->
  (forall old, mlookup (hmap w) k = Some old ->
     SetWithNotExist k v w = Some ((old, false), w)) /\
  (mlookup (hmap w) k = None ->
     exists w',
       SetWithNotExist k v w = Some ((v, true), w') /\
       wf (hmap w') /\
       mlookup (hmap w') k = Some v /\
       (forall k', k' <> k -> mlookup (hmap w') k' = mlookup (hmap w) k') /\
       forall v2,
         SetWithNotExist k v2 w' = Some ((v, false), w') /\
         Get k w' = Some ((v, true), w')).
Proof.
  intros Hwf. pose proof Hwf as [Hp _]. split.
  - intros old Hk. by rewrite SetWithNotExist_run, Hk.
  - intros Hk. rewrite SetWithNotExist_run, Hk by done.
    eexists. split; [done|]. cbn [hmap].
    assert (Hnew : mlookup (set_map (hmap w) k v) k = Some v)
      by by rewrite mlookup_set_map, decide_True.
    split; [by apply wf_set_map|]. split; [done|]. split.
    + intros k' Hne. by rewrite mlookup_set_map, decide_False.
    + intros v2. rewrite SetWithNotExist_run, Get_run
        by by apply pow2_shards_with_data.
      cbn [hmap]. by rewrite Hnew.
Qed.


(** *** Further properties of the point operations *)

Lemma with_data_twice (m : Map) i d1 d2 :
  with_data (with_data m i d1) i d2 = with_data m i d2.
Proof. unfold with_data. simpl. by rewrite list_insert_insert_eq. Qed.

Lemma with_data_same (m : Map) key :
  pow2_shards m -> with_data m (index_of m key) (shard_data m key) = m.
Proof.
  intros Hm. destruct (shard_data_lookup m key Hm) as (it & Hit & Hd).
  unfold with_data. destruct m as [ds sd]. simpl in *. f_equal.
  rewrite Hd. destruct it. by apply list_insert_id.
Qed.

Lemma shard_data_set_map (m : Map) key value :
  pow2_shards m ->
  shard_data (set_map m key value) key = <[key := value]> (shard_data m key).
Proof.
  intros Hm. unfold Model.set_map.
  rewrite shard_data_with_data by (done || by apply index_of_range).
  by rewrite decide_True.
Qed.

Lemma set_map_twice (m : Map) key v1 v2 :
  pow2_shards m -> set_map (set_map m key v1) key v2 = set_map m key v2.
Proof.
  intros Hm. unfold Model.set_map at 1.
  rewrite shard_data_set_map by done.
  unfold Model.set_map. rewrite index_of_with_data, with_data_twice.
  by rewrite insert_insert_eq.
Qed.

Lemma del_map_set_map (m : Map) key value :
  pow2_shards m -> mlookup m key = None ->
  del_map (set_map m key value) key = m.
Proof.
  intros Hm Hk. unfold Model.del_map.
  rewrite shard_data_set_map by done.
  unfold Model.set_map. rewrite index_of_with_data, with_data_twice.
  rewrite delete_insert_eq, delete_id by done. by apply with_data_same.
Qed.

(** X1: [Set] adds one to [Len()] when its key is new and leaves it as
    it is when it overwrites. *)
Theorem Set_Len {St} (w : @World V St Seed) k v :
  wf (hmap w) ->
  exists w' n n',
    Set_ k v w = Some (tt, w') /\
    wf (hmap w') /\
    Len w = Some (n, w) /\
    Len w' = Some (n', w') /\
    n' = match mlookup (hmap w) k with
         | Some _ => n
         | None => n + 1
         end.
Proof.
  intros Hwf. pose proof Hwf as [Hp _].
  eexists _, _, _. rewrite Set_run by done.
  split; [done|]. cbn [hmap].
  split; [by apply wf_set_map|].
  split; [by apply Len_run|].
  split; [by apply Len_run, wf_set_map|].
  cbn [hmap]. rewrite contents_set_map by done.
  rewrite <- lookup_contents by done.
  destruct (contents (hmap w) !! k) as [old|] eqn:Hk.
  - by rewrite map_size_insert_Some by by rewrite Hk.
  - rewrite map_size_insert_None by done. lia.
Qed.

(** X5: a second [Set] on the same key wins, leaving the very map a
    single [Set] of the second value gives; and a [Set] never changes
    what [Get] returns for another key. *)
Theorem Set_overwrites {St} (w : @World V St Seed) k v1 v2 :
  wf (hmap w) ->
  exists w2,
    bind (Set_ k v1) (fun _ => Set_ k v2) w = Some (tt, w2) /\
    Set_ k v2 w = Some (tt, w2) /\
    Get k w2 = Some ((v2, true), w2) /\
    forall k', k' <> k ->
      exists r, Get k' w = Some (r, w) /\ Get k' w2 = Some (r, w2).
Proof.
  intros Hwf. pose proof Hwf as [Hp _].
  exists (MkWorld (set_map (hmap w) k v2) (caller w)).
  assert (Hp2 : pow2_shards (set_map (hmap w) k v2))
    by by apply pow2_shards_with_data.
  split; [|split; [by apply Set_run|split]].
  - unfold bind. rewrite Set_run by done.
    rewrite Set_run by by apply pow2_shards_with_data.
    cbn [hmap caller]. by rewrite set_map_twice.
  - rewrite Get_run by done. cbn [hmap].
    by rewrite mlookup_set_map, decide_True.
  - intros k' Hne. exists (found zeroV (mlookup (hmap w) k')).
    rewrite !Get_run by done. split; [done|]. cbn [hmap].
    by rewrite mlookup_set_map, decide_False.
Qed.

(** X13: on a map that does not hold [k], [Set(k, v)] followed by
    [Delete(k)] returns true and gives back the map as it was. *)
Theorem Set_Delete_restores {St} (w : @World V St Seed) k v :
  wf (hmap w) -> mlookup (hmap w) k = None ->
  bind (Set_ k v) (fun _ => Delete k) w = Some (true, w).
Proof.
  intros [Hp _] Hk. unfold bind. rewrite Set_run by done.
  rewrite Delete_run by by apply pow2_shards_with_data.
  cbn [hmap caller]. rewrite mlookup_set_map, decide_True by done.
  rewrite del_map_set_map by done. by destruct w.
Qed.

(** X14: [SetWithNotExist] does in one step what [Get] followed by a
    [Set] on an absent key does. *)
Theorem SetWithNotExist_as_Get_Set {St} (w : @World V St Seed) k v :
  wf (hmap w) ->
  SetWithNotExist k v w =
    bind (Get k)
         (fun r => if r.2 then ret (r.1, false)
                   else bind (Set_ k v) (fun _ => ret (v, true))) w.
Proof.
  intros [Hp _]. unfold bind.
  rewrite SetWithNotExist_run, Get_run by done.
  destruct (mlookup (hmap w) k) as [old|]; cbn [found fst snd]; [done|].
  by rewrite Set_run.
Qed.

(** *** Further properties of the whole-map operations *)

(** X4: a new map is empty: every [Get] returns the zero value and
    false, [Len()] is 0, and without a hint there are 64 shards. *)
Theorem New_is_empty {St} hint (seed0 : Seed) (s : St) k :
  Get k (MkWorld (New hint seed0) s)
    = Some ((zeroV, false), MkWorld (New hint seed0) s) /\
  Len (MkWorld (New (V:=V) hint seed0) s)
    = Some (0, MkWorld (New hint seed0) s) /\
  ShardCount (MkWorld (New (V:=V) [] seed0) s)
    = Some (64, MkWorld (New [] seed0) s).
Proof.
  split; [|split].
  - rewrite Get_run by apply pow2_shards_New. cbn [hmap].
    by rewrite mlookup_New.
  - rewrite Len_run by apply wf_New. cbn [hmap].
    by rewrite contents_New, map_size_empty.
  - reflexivity.
Qed.

Lemma LenWithSlice_loop_run {St} (w : @World V St Seed) pre suf counts :
  datas (hmap w) = pre ++ suf ->
  LenWithSlice_loop (Z.of_nat <$> seq (length pre) (length suf)) counts w =
    Some (counts ++ ((fun it => Z.of_nat (size (data it))) <$> suf), w).
Proof.
  revert pre counts. induction suf as [|it suf IH]; intros pre counts Hds.
  - simpl. unfold ret. by rewrite app_nil_r.
  - cbn [length seq]. rewrite fmap_cons. cbn [LenWithSlice_loop].
    unfold bind.
    rewrite (shard_at w _ it);
      [|lia|by rewrite Nat2Z.id, Hds, list_lookup_middle].
    specialize (IH (pre ++ [it]) (counts ++ [Z.of_nat (size (data it))])).
    rewrite length_app, Nat.add_1_r in IH. rewrite IH.
    + by rewrite fmap_cons, <- app_assoc.
    + by rewrite <- app_assoc.
Qed.

Lemma sum_sizes (ds : list (@mapItem V)) :
  foldr Z.add 0 ((fun it => Z.of_nat (size (data it))) <$> ds) =
    Z.of_nat (sum_list ((size ∘ data) <$> ds)).
Proof.
  induction ds as [|it ds IH]; [done|].
  rewrite !fmap_cons. cbn [foldr sum_list sum_list_with compose].
  unfold id. rewrite IH, Nat2Z.inj_add. reflexivity.
Qed.

(** X2: [LenWithSlice()] has one count per shard, the count of shard
    [i] is the number of entries of shard [i], and the counts add up to
    [Len()]. *)
Theorem LenWithSlice_spec {St} (w : @World V St Seed) :
  exists counts n,
    LenWithSlice w = Some (counts, w) /\
    Len w = Some (n, w) /\
    ShardCount w = Some (Z.of_nat (length counts), w) /\
    foldr Z.add 0 counts = n /\
    forall (i : nat) it,
      datas (hmap w) !! i = Some it ->
      counts !! i = Some (Z.of_nat (size (data it))).
Proof.
  exists ((fun it => Z.of_nat (size (data it))) <$> datas (hmap w)),
         (Z.of_nat (sum_list ((size ∘ data) <$> datas (hmap w)))).
  split; [|split; [|split; [|split]]].
  - unfold LenWithSlice, bind, get_map, indices.
    by apply (LenWithSlice_loop_run w [] (datas (hmap w)) []).
  - unfold Len, bind, get_map, indices.
    by apply (Len_loop_run w [] (datas (hmap w)) 0).
  - unfold ShardCount, bind, get_map, ret. by rewrite length_fmap.
  - apply sum_sizes.
  - intros i it Hi. by rewrite list_lookup_fmap, Hi.
Qed.

Lemma contents_cleared (m : Map) : contents (cleared m) = ∅.
Proof.
  apply map_eq. intros key. rewrite lookup_empty.
  apply lookup_union_list_None_2, Forall_forall.
  intros d (it & -> & Hin)%list_elem_of_fmap.
  apply elem_of_replicate in Hin as [-> _]. apply lookup_empty.
Qed.

(** X3: after [Clear()] the map is empty, [Len()] is 0 and every [Get]
    reports its key absent, while the shard count, the seed and so the
    routing of every key stay as they were. *)
Theorem Clear_spec {St} (w : @World V St Seed) :
  wf (hmap w) ->
  exists w',
    Clear w = Some (tt, w') /\
    wf (hmap w') /\
    caller w' = caller w /\
    Len w' = Some (0, w') /\
    contents (hmap w') = ∅ /\
    (forall k, Get k w' = Some ((zeroV, false), w')) /\
    (forall k, index_of (hmap w') k = index_of (hmap w) k) /\
    exists n, ShardCount w = Some (n, w) /\ ShardCount w' = Some (n, w').
Proof.
  intros Hwf. exists (MkWorld (cleared (hmap w)) (caller w)).
  pose proof (wf_cleared _ Hwf) as Hwf'.
  split; [apply Clear_run|]. split; [done|]. split; [done|].
  split; [|split; [apply contents_cleared|split; [|split]]].
  - rewrite Len_run by done. cbn [hmap].
    by rewrite contents_cleared, map_size_empty.
  - intros k. rewrite Get_run by apply Hwf'. cbn [hmap].
    rewrite <- lookup_contents by done.
    by rewrite contents_cleared, lookup_empty.
  - intros k. unfold Hmap.index_of, cleared. cbn [hmap datas seed].
    by rewrite length_replicate.
  - exists (Z.of_nat (length (datas (hmap w)))). split; [done|].
    unfold ShardCount, bind, get_map, ret, cleared. cbn [hmap datas].
    by rewrite length_replicate.
Qed.


(** *** Further properties of [trueShards] *)

(** X6: rounding a shard count twice is rounding it once, and a larger
    request never gets fewer shards. *)
Theorem trueShards_idempotent_monotone n n' :
  trueShards (trueShards n) = trueShards n /\
  (n <= n' -> trueShards n <= trueShards n').
Proof.
  split.
  - destruct (trueShards_is_pow2 n) as (e & He & ->).
    assert (1 <= 2 ^ e <= 65536).
    { change 65536 with (2 ^ 16). change 1 with (2 ^ 0) at 1.
      split; apply Z.pow_le_mono_r; lia. }
    rewrite trueShards_pow2 by done. by rewrite Z.log2_up_pow2 by lia.
  - intros Hle. rewrite !trueShards_spec. unfold spec_shard_count.
    assert (2 ^ Z.log2_up n <= 2 ^ Z.log2_up n').
    { apply Z.pow_le_mono_r; [lia|]. by apply Z.log2_up_le_mono. }
    lia.
Qed.

(** X7: within the range that is not clamped, the shard count is at
    least the request and less than twice the request. *)
Theorem trueShards_bounds n :
  1 <= n <= 65536 -> n <= trueShards n < 2 * n.
Proof.
  intros Hn. rewrite trueShards_pow2 by done.
  destruct (Z.eq_dec n 1) as [->|Hne]; [by vm_compute|].
  destruct (Z.log2_up_spec n) as [Hlo Hhi]; [lia|].
  split; [done|].
  replace (Z.log2_up n) with (Z.succ (Z.pred (Z.log2_up n))) by lia.
  rewrite Z.pow_succ_r; [lia|].
  assert (0 < Z.log2_up n) by (apply Z.log2_up_pos; lia). lia.
Qed.

(** *** What no call changes *)

Lemma del_keys_shape (m : Map) dels :
  length (datas (del_keys m dels)) = length (datas m) /\
  seed (del_keys m dels) = seed m.
Proof.
  revert m. induction dels as [|k dels IH]; intros m; [done|].
  rewrite del_keys_cons. destruct (IH (del_map m k)) as [-> ->].
  unfold Model.del_map, with_data. simpl. by rewrite length_insert.
Qed.

Lemma exec_shape {St} (o : @op V St Err) (w w' : @World V St Seed) :
  wf (hmap w) -> exec o w = Some (tt, w') ->
  length (datas (hmap w')) = length (datas (hmap w)) /\
  seed (hmap w') = seed (hmap w).
Proof.
  intros Hwf. pose proof Hwf as [Hp _].
  assert (Hset : forall k v,
    length (datas (set_map (hmap w) k v)) = length (datas (hmap w)) /\
    seed (set_map (hmap w) k v) = seed (hmap w)).
  { intros k v. unfold Model.set_map, with_data. simpl.
    by rewrite length_insert. }
  assert (Hdel : forall k,
    length (datas (del_map (hmap w) k)) = length (datas (hmap w)) /\
    seed (del_map (hmap w) k) = seed (hmap w)).
  { intros k. unfold Model.del_map, with_data. simpl.
    by rewrite length_insert. }
  destruct o as [k v|k v|k|k d|k|k delIf| | |f]; cbn [Model.exec];
    unfold bind.
  - rewrite Set_run by done. intros [= <-]. apply Hset.
  - rewrite SetWithNotExist_run by done.
    destruct (mlookup (hmap w) k); intros [= <-]; [done|apply Hset].
  - rewrite Get_run by done. by intros [= <-].
  - rewrite GetWithDefault_run by done. by intros [= <-].
  - rewrite Delete_run by done.
    destruct (mlookup (hmap w) k); intros [= <-]; [apply Hdel|done].
  - rewrite DeleteIf_run by done.
    destruct (mlookup (hmap w) k) as [old|]; [|by intros [= <-]].
    destruct (delIf old (caller w)) as [[] s]; intros [= <-];
      [apply Hdel|done].
  - rewrite Len_run by done. by intros [= <-].
  - rewrite Clear_run. intros [= <-]. unfold cleared. simpl.
    by rewrite length_replicate.
  - destruct w as [m s]. cbn [hmap] in *.
    destruct (sweep f (visit_order m) s) as [[[dels keeps] err] s'] eqn:Hsw.
    rewrite (Prune_run f m s dels keeps err s' Hwf Hsw).
    intros [= <-]. apply del_keys_shape.
Qed.

(** X8: the shard table is never resized or reseeded: after any
    sequence of calls the shard count is what it was and every key is
    routed to the shard it was routed to before. *)
Theorem routing_is_stable {St} (ops : list (@op V St Err))
    (w : @World V St Seed) k :
  wf (hmap w) ->
  exists w' i n,
    run ops w = Some (tt, w') /\
    getIndex k w = Some (i, w) /\
    getIndex k w' = Some (i, w') /\
    ShardCount w = Some (n, w) /\
    ShardCount w' = Some (n, w').
Proof.
  revert w. induction ops as [|o ops IH]; intros w Hwf.
  - by exists w, (index_of (hmap w) k), (Z.of_nat (length (datas (hmap w)))).
  - destruct (exec_run o w Hwf) as (w1 & Hexec & Hwf1 & _).
    destruct (exec_shape o w w1 Hwf Hexec) as [Hlen Hseed].
    destruct (IH w1 Hwf1) as (w' & i & n & Hrun & Hi1 & Hi' & Hn1 & Hn').
    exists w', i, n. cbn [Model.run]. unfold bind. rewrite Hexec.
    split; [done|]. split; [|split; [done|split; [|done]]].
    + rewrite getIndex_run in Hi1. injection Hi1 as <-.
      rewrite getIndex_run. unfold Hmap.index_of. by rewrite Hlen, Hseed.
    + unfold ShardCount, bind, get_map, ret in Hn1 |- *.
      injection Hn1 as <-. by rewrite Hlen.
Qed.


(** *** Further properties of [Prune] and [Range] *)

(** The keys a sweep judged are the keys of a prefix of its list, the
    whole list when there was no error. *)
Lemma sweep_prefix {St} (f : string -> V -> St -> (bool * option Err) * St)
    l s dels keeps err s' :
  sweep f l s = (dels, keeps, err, s') ->
  exists pre,
    pre `prefix_of` l /\ dels ++ keeps ≡ₚ pre.*1 /\ (err = None -> pre = l).
Proof.
  revert s dels keeps err s'.
  induction l as [|[k v] l IH]; intros s dels keeps err s' Hsw.
  - injection Hsw as <- <- <- <-. by exists [].
  - cbn [sweep] in Hsw. destruct (f k v s) as [[ok [e|]] s1].
    { injection Hsw as <- <- <- <-. exists []. split; [apply prefix_nil|].
      by split. }
    destruct (sweep f l s1) as [[[d1 k1] r1] s2] eqn:Hrec.
    destruct (IH _ _ _ _ _ Hrec) as (pre & Hpre & Hperm & Hall).
    exists ((k, v) :: pre). split; [by apply prefix_cons|].
    destruct ok; injection Hsw as <- <- <- <-; cbn [fmap list_fmap fst].
    + split; [simpl; by rewrite Hperm|]. intros ->. by rewrite Hall.
    + split; [by rewrite <- Permutation_middle, Hperm|].
      intros ->. by rewrite Hall.
Qed.

Lemma size_foldl_delete (c : gmap string V) dels :
  NoDup dels -> (forall key, key ∈ dels -> is_Some (c !! key)) ->
  (size (foldl (fun c key => delete key c) c dels) + length dels)%nat
    = size c.
Proof.
  revert c. induction dels as [|k dels IH]; intros c Hnd Hin.
  - simpl. lia.
  - apply NoDup_cons in Hnd as [Hk Hnd]. cbn [foldl length].
    assert (Hrest : forall key, key ∈ dels -> is_Some (delete k c !! key)).
    { intros key Hkey. rewrite lookup_delete_ne by (intros ->; done).
      apply Hin. by right. }
    specialize (IH (delete k c) Hnd Hrest).
    pose proof (map_size_delete_Some k c (Hin k (list_elem_of_here _ _))).
    assert (size c <> 0%nat).
    { intros H0%map_size_empty_iff.
      destruct (Hin k (list_elem_of_here _ _)) as [x Hx].
      by rewrite H0, lookup_empty in Hx. }
    lia.
Qed.

(** X9: whatever the predicate does, error or not, the map [Prune]
    leaves has [Len()] smaller by exactly the number of deletions it
    reports; the two counts never exceed the entries there were, and
    without an error they add up to them. *)
Theorem Prune_counts {St}
    (f : string -> V -> St -> (bool * option Err) * St) (m : Map) (s : St) :
  wf m ->
  exists delNum nowNum err m' s' total,
    Prune f (MkWorld m s) = Some ((delNum, nowNum, err), MkWorld m' s') /\
    wf m' /\
    Len (MkWorld m s) = Some (total, MkWorld m s) /\
    Len (MkWorld m' s') = Some (total - delNum, MkWorld m' s') /\
    0 <= delNum /\ 0 <= nowNum /\ delNum + nowNum <= total /\
    (err = None -> delNum + nowNum = total).
Proof.
  intros Hm.
  destruct (sweep f (visit_order m) s) as [[[dels keeps] err] s'] eqn:Hsw.
  destruct (sweep_prefix f _ _ _ _ _ _ Hsw) as (pre & Hpre & Hperm & Hall).
  pose proof (NoDup_visit_order m Hm) as Hnd.
  assert (Hlen : length (visit_order m) = size (contents m)).
  { by rewrite (visit_order_contents m Hm), length_map_to_list. }
  assert (Hndpre : NoDup pre.*1).
  { destruct Hpre as [post Hpost]. rewrite Hpost, fmap_app in Hnd.
    by apply NoDup_app in Hnd as (? & _ & _). }
  assert (Hnddk : NoDup (dels ++ keeps)) by by rewrite Hperm.
  assert (Hcount : (length dels + length keeps)%nat = length pre).
  { by rewrite <- length_app, Hperm, length_fmap. }
  pose proof (prefix_length _ _ Hpre) as Hle.
  assert (Hpresent : forall key, key ∈ dels -> is_Some (contents m !! key)).
  { intros key Hkey.
    assert (Hin : key ∈ pre.*1).
    { rewrite <- Hperm. apply elem_of_app. by left. }
    apply list_elem_of_fmap in Hin as ([k' v'] & -> & Hin).
    destruct Hpre as [post Hpost].
    assert (Hv : (k', v') ∈ visit_order m).
    { rewrite Hpost. apply elem_of_app. by left. }
    apply elem_of_visit_order in Hv; [|done].
    rewrite lookup_contents by done. by exists v'. }
  exists (Z.of_nat (length dels)), (Z.of_nat (length keeps)), err,
         (del_keys m dels), s', (Z.of_nat (size (contents m))).
  split; [by apply Prune_run|]. split; [by apply wf_del_keys|].
  split; [by apply Len_run|].
  split.
  - rewrite Len_run by by apply wf_del_keys. cbn [hmap].
    rewrite contents_del_keys by done.
    pose proof (size_foldl_delete (contents m) dels) as Hsize.
    rewrite <- Hsize; [|by apply NoDup_app in Hnddk as (? & _ & _)|done].
    do 2 f_equal. lia.
  - split; [lia|]. split; [lia|]. split; [lia|].
    intros Hnone. rewrite (Hall Hnone) in Hcount. lia.
Qed.

Lemma sweep_always {St} (b : bool) (l : list (string * V)) (s : St) :
  sweep (pure_pred (fun _ _ => b)) l s =
    (if b then l.*1 else [], if b then [] else l.*1, None, s).
Proof.
  induction l as [|[k v] l IH]; [by destruct b|].
  cbn [sweep]. unfold Model.pure_pred at 1. rewrite IH. by destruct b.
Qed.

(** X10: a predicate that asks to delete everything empties the map
    and reports every entry as deleted; a predicate that asks to keep
    everything leaves the map exactly as it was and reports every entry
    as kept. *)
Theorem Prune_all_or_nothing {St} (m : Map) (s : St) :
  wf m ->
  (exists m',
      Prune (pure_pred (fun _ _ => true)) (MkWorld m s)
        = Some ((Z.of_nat (size (contents m)), 0, None), MkWorld m' s) /\
      wf m' /\ contents m' = ∅) /\
  Prune (pure_pred (fun _ _ => false)) (MkWorld m s)
    = Some ((0, Z.of_nat (size (contents m)), None), MkWorld m s).
Proof.
  intros Hm.
  assert (Hlen : length (visit_order m).*1 = size (contents m)).
  { by rewrite length_fmap, (visit_order_contents m Hm), length_map_to_list. }
  split.
  - exists (del_keys m (visit_order m).*1).
    rewrite (Prune_run _ m s _ _ _ _ Hm (sweep_always true _ s)).
    rewrite Hlen. split; [done|]. split; [by apply wf_del_keys|].
    apply map_eq. intros key.
    rewrite lookup_contents by by apply wf_del_keys.
    rewrite mlookup_del_keys, lookup_empty by apply Hm.
    case_decide as Hin; [done|].
    destruct (mlookup m key) as [value|] eqn:Hk; [|done].
    exfalso. apply Hin, list_elem_of_fmap. exists (key, value).
    split; [done|]. by apply elem_of_visit_order.
  - rewrite (Prune_run _ m s _ _ _ _ Hm (sweep_always false _ s)).
    by rewrite Hlen.
Qed.

(** X11: a visitor that never writes the map and always answers true
    is handed every entry of the map exactly once, [Len()] pairs in
    all. *)
Theorem Range_visits_everything {St} (f : string -> V -> @M V St Seed bool)
    (m : Map) (s : St) :
  wf m ->
  (forall key value w,
      exists s', f key value w = Some (true, MkWorld (hmap w) s')) ->
  exists s' lg,
    Range (logged_visitor f) (MkWorld m (s, []))
      = Some (tt, MkWorld m (s', lg)) /\
    lg.*1 ≡ₚ map_to_list (contents m) /\
    Len (MkWorld m s) = Some (Z.of_nat (length lg), MkWorld m s).
Proof.
  intros Hm Htrue.
  assert (Hf : reads_only f).
  { intros key value w. destruct (Htrue key value w) as [s' ->]. by eexists _, _. }
  destruct (Range_loop_run f m [] (datas m) s [] Hf eq_refl)
    as (c & s' & lg & _ & Hrun & _ & Hans & Hall).
  assert (Hgo : Forall (fun e => e.2 = true) lg).
  { apply (Range_loop_invariant (logged_visitor f)
             (fun w => Forall (fun e => e.2 = true) (snd (caller w)))
             (Z.of_nat <$> seq 0 (length (datas m)))
             (MkWorld m (s, [])) (MkWorld m (s', [] ++ lg)));
      [|by constructor|exact Hrun].
    intros key value w0 r w1 Hw0. unfold logged_visitor.
    destruct (Htrue key value (MkWorld (hmap w0) (fst (caller w0))))
      as [s1 ->].
    intros [= <- <-]. cbn [caller snd]. apply Forall_app. split; [done|].
    by constructor. }
  assert (Hc : c = true).
  { destruct c; [done|]. destruct Hans as (pre & e & -> & He & _).
    apply Forall_app in Hgo as [_ Hlast].
    apply Forall_cons in Hlast as [Hlast _]. congruence. }
  exists s', lg. split; [exact Hrun|].
  specialize (Hall Hc). change (lg.*1 = visit_order m) in Hall.
  split; [rewrite Hall; by apply visit_order_contents|].
  rewrite Len_run by done. cbn [hmap].
  rewrite <- (length_fmap fst lg), Hall.
  by rewrite (visit_order_contents m Hm), length_map_to_list.
Qed.

(** X12: a visitor may write the map while [Range] runs.  If every
    call of the visitor returns and keeps a property of the world that
    fixes the shard count, [Range] returns and the property holds at the
    end. *)
Theorem Range_keeps_invariant {St} (f : string -> V -> @M V St Seed bool)
    (P : @World V St Seed -> Prop) (n : nat) w :
  (forall w0, P w0 -> length (datas (hmap w0)) = n) ->
  (forall key value w0,
      P w0 -> exists c w1, f key value w0 = Some (c, w1) /\ P w1) ->
  P w ->
  exists w', Range f w = Some (tt, w') /\ P w'.
Proof.
  intros Hlen Hf Hw. unfold Hmap.Range, bind, get_map, indices.
  rewrite (Hlen w Hw).
  assert (Hgen : forall j k w0, (j + k)%nat = n -> P w0 ->
    exists w', Range_loop f (Z.of_nat <$> seq j k) w0 = Some (tt, w') /\ P w').
  { intros j k. revert j. induction k as [|k IH]; intros j w0 Hjk Hw0.
    - by exists w0.
    - cbn [seq]. rewrite fmap_cons. cbn [Range_loop]. unfold bind.
      destruct (lookup_lt_is_Some_2 (datas (hmap w0)) j) as [it Hit];
        [rewrite (Hlen w0 Hw0); lia|].
      rewrite (shard_at w0 _ it); [|lia|by rewrite Nat2Z.id].
      destruct (Range_visit_total f P
                  (iter_order (Z.of_nat j) (data it)) w0 Hf Hw0)
        as (c & w1 & Hv & Hw1).
      rewrite Hv. destruct c; [|by exists w1].
      apply IH; [lia|done]. }
  by apply (Hgen 0%nat n).
Qed.


(** *** The earlier version of the package *)

(** X15: the earlier [Set] with its flag set is [SetWithNotExist]
    without the boolean: on a present key it returns the value there and
    leaves the map alone, on an absent key it stores and returns the new
    value.  Without the flag, or with it false, it is [Set] returning
    the value stored. *)
Theorem Legacy_Set_spec {St} (w : @World V St Seed) k v rest :
  wf (hmap w) ->
  Legacy.Set_ zeroV maphash_String k v (true :: rest) w
    = bind (SetWithNotExist k v) (fun r => ret r.1) w /\
  (forall old, mlookup (hmap w) k = Some old ->
     Legacy.Set_ zeroV maphash_String k v (true :: rest) w = Some (old, w)) /\
  Legacy.Set_ zeroV maphash_String k v (false :: rest) w
    = bind (Set_ k v) (fun _ => ret v) w /\
  Legacy.Set_ zeroV maphash_String k v [] w
    = bind (Set_ k v) (fun _ => ret v) w.
Proof.
  intros [Hp _].
  assert (Hflag : Legacy.Set_ zeroV maphash_String k v (true :: rest) w
                  = bind (SetWithNotExist k v) (fun r => ret r.1) w).
  { unfold Legacy.Set_, Legacy.getIndex, bind, get_map. cbn [ret].
    unfold ret at 1. rewrite SetWithNotExist_run by done.
    destruct (mlookup (hmap w) k) as [old|] eqn:Hk.
    - by rewrite load_run, Hk.
    - rewrite load_run, Hk by done. cbn [found].
      rewrite load_run, Hk by done. cbn [found].
      by rewrite store_run. }
  split; [exact Hflag|]. split; [|split].
  - intros old Hold. rewrite Hflag. unfold bind.
    by rewrite SetWithNotExist_run, Hold.
  - unfold Legacy.Set_, Legacy.getIndex, bind, get_map, ret.
    by rewrite Set_run, store_run.
  - unfold Legacy.Set_, Legacy.getIndex, bind, get_map, ret.
    by rewrite Set_run, store_run.
Qed.

(** X16: the earlier [Get]: for an absent key it returns the fallback
    when one is given and the zero value otherwise, with false; for a
    present key it returns the value and true whatever the fallback; it
    never changes the map. *)
Theorem Legacy_Get_spec {St} (w : @World V St Seed) k :
  wf (hmap w) ->
  (mlookup (hmap w) k = None ->
     Legacy.Get zeroV maphash_String k [] w = Some ((zeroV, false), w) /\
     forall d rest,
       Legacy.Get zeroV maphash_String k (d :: rest) w
         = Some ((d, false), w)) /\
  (forall v defaultValue, mlookup (hmap w) k = Some v ->
     Legacy.Get zeroV maphash_String k defaultValue w = Some ((v, true), w)).
Proof.
  intros [Hp _]. split.
  - intros Hk. split; [|intros d rest];
      unfold Legacy.Get, Legacy.getIndex, bind, get_map; cbn [ret];
      unfold ret at 1; by rewrite load_run, Hk.
  - intros v ds Hk. unfold Legacy.Get, Legacy.getIndex, bind, get_map.
    cbn [ret]. unfold ret at 1. rewrite load_run, Hk by done.
    by destruct ds.
Qed.

(** X17: [GetMaps] never panics: for a negative index or one from the
    shard count on it returns nil, otherwise the dictionary of that
    shard; the map is not changed. *)
Theorem Legacy_GetMaps_spec {St} (w : @World V St Seed) index :
  exists r,
    Legacy.GetMaps index w = Some (r, w) /\
    (index < 0 \/ Z.of_nat (length (datas (hmap w))) <= index -> r = None) /\
    (0 <= index < Z.of_nat (length (datas (hmap w))) ->
       exists it, datas (hmap w) !! Z.to_nat index = Some it /\
                  r = Some (data it)).
Proof.
  unfold Legacy.GetMaps, bind, get_map.
  destruct (Z.ltb_spec index 0) as [Hneg|Hnn]; cbn [orb].
  { exists None. split; [done|]. split; [done|lia]. }
  destruct (Z.geb_spec index (Z.of_nat (length (datas (hmap w)))))
    as [Hge|Hlt].
  { exists None. split; [done|]. split; [done|lia]. }
  destruct (lookup_lt_is_Some_2 (datas (hmap w)) (Z.to_nat index))
    as [it Hit]; [lia|].
  exists (Some (data it)). rewrite (shard_at w index it) by done.
  split; [unfold ret; by rewrite (right_id ∅ (∪))|].
  split; [lia|]. intros _. by exists it.
Qed.

Lemma map_union_list_app (ds1 ds2 : list (gmap string V)) :
  ⋃ (ds1 ++ ds2) = ⋃ ds1 ∪ ⋃ ds2.
Proof.
  induction ds1 as [|d ds1 IH]; simpl.
  - by rewrite (left_id ∅ (∪)).
  - by rewrite IH, (assoc_L (∪)).
Qed.

Lemma GetAllMaps_loop_run {St} (w : @World V St Seed) pre suf re :
  datas (hmap w) = pre ++ suf ->
  Legacy.GetAllMaps_loop (Z.of_nat <$> seq (length pre) (length suf)) re w =
    Some (⋃ (data <$> reverse suf) ∪ re, w).
Proof.
  revert pre re. induction suf as [|it suf IH]; intros pre re Hds.
  - simpl. unfold ret. by rewrite (left_id ∅ (∪)).
  - cbn [length seq]. rewrite fmap_cons. cbn [Legacy.GetAllMaps_loop].
    unfold bind.
    rewrite (shard_at w _ it);
      [|lia|by rewrite Nat2Z.id, Hds, list_lookup_middle].
    specialize (IH (pre ++ [it]) (data it ∪ re)).
    rewrite length_app, Nat.add_1_r in IH. rewrite IH.
    + rewrite reverse_cons, fmap_app, map_union_list_app. simpl.
      rewrite (right_id ∅ (∪)). by rewrite (assoc_L (∪)).
    + by rewrite <- app_assoc.
Qed.

(** X18: [GetAllMaps] returns one dictionary with exactly the entries
    of the map: for every key it holds what [Get] finds, and its size
    is [Len()]; the map is not changed. *)
Theorem Legacy_GetAllMaps_spec {St} (w : @World V St Seed) :
  wf (hmap w) ->
  exists all,
    Legacy.GetAllMaps w = Some (all, w) /\
    all = contents (hmap w) /\
    (forall k, Get k w = Some (found zeroV (all !! k), w)) /\
    Len w = Some (Z.of_nat (size all), w).
Proof.
  intros Hwf. pose proof Hwf as [Hp Hr].
  exists (contents (hmap w)). split; [|split; [done|split]].
  - unfold Legacy.GetAllMaps, bind, get_map, indices.
    rewrite (GetAllMaps_loop_run w [] (datas (hmap w)) ∅) by done.
    rewrite (right_id ∅ (∪)). do 2 f_equal. unfold contents.
    apply map_union_list_Permutation.
    + apply fmap_Permutation, reverse_Permutation.
    + apply (map_disjoint_list_Permutation (data <$> datas (hmap w)));
        [by apply shards_disjoint|].
      apply fmap_Permutation. symmetry. apply reverse_Permutation.
  - intros k. by rewrite Get_run, lookup_contents.
  - by apply Len_run.
Qed.


(** X19: a map made by the earlier [New] is well formed and empty, with
    32 shards when no count is asked for and the rounded count
    otherwise. *)
Theorem Legacy_New_spec {St} hint (seed0 : Seed) (s : St) :
  wf (Legacy.New (V:=V) hint seed0) /\
  contents (Legacy.New (V:=V) hint seed0) = ∅ /\
  ShardCount (MkWorld (Legacy.New (V:=V) hint seed0) s)
    = Some (match hint with [] => 32 | n :: _ => trueShards n end,
            MkWorld (Legacy.New hint seed0) s).
Proof.
  assert (Hlen : Z.of_nat (length (datas (Legacy.New (V:=V) hint seed0))) =
                 match hint with [] => 32 | n :: _ => trueShards n end).
  { unfold Legacy.New. simpl. rewrite length_replicate.
    destruct hint as [|n rest]; [reflexivity|].
    destruct (trueShards_is_pow2 n) as (e & He & Hn).
    pose proof (Z.pow_pos_nonneg 2 e). lia. }
  assert (Hwf : wf (Legacy.New (V:=V) hint seed0)).
  { split.
    - unfold pow2_shards. rewrite Hlen.
      destruct hint as [|n rest]; [by exists 5|apply trueShards_is_pow2].
    - intros i it key Hi [v Hv]. unfold Legacy.New in Hi. simpl in Hi.
      apply lookup_replicate in Hi as [-> _]. simpl in Hv.
      by rewrite lookup_empty in Hv. }
  split; [done|]. split.
  - apply map_eq. intros key. rewrite lookup_empty.
    apply lookup_union_list_None_2, Forall_forall.
    intros d (it & -> & Hin)%list_elem_of_fmap.
    unfold Legacy.New in Hin. simpl in Hin.
    apply elem_of_replicate in Hin as [-> _]. apply lookup_empty.
  - unfold ShardCount, bind, get_map, ret. cbn [hmap]. by rewrite Hlen.
Qed.


End Facts.

(** ** The claims on the concrete instance *)

Lemma Demo_order_perm i (d : gmap string Z) : Demo.order i d ≡ₚ map_to_list d.
Proof. reflexivity. Qed.

Lemma Demo_wf_four : wf Demo.hash Demo.four.
Proof. unfold Demo.four. do 4 apply wf_set_map. apply wf_New. Qed.

Lemma Demo_wf_pair : wf Demo.hash Demo.pair.
Proof. unfold Demo.pair. do 2 apply wf_set_map. apply wf_New. Qed.

(** C1 on the instance: a map made with [New(4)], written to, then
    [Set("k", 5)], then calls that do not clobber ["k"]. *)
Lemma Set_then_Get_witness :
  Forall (fun o => ~ clobbers (St:=unit) (Err:=string) "k" o)
         [OSet "b" 2; ODelete "a"; OSetWithNotExist "k" 9; OGet "k"] /\
  exists w',
    run (Err:=string) 0 Demo.hash Demo.order
        ([OSet "a" 1] ++
         OSet "k" 5 ::
         [OSet "b" 2; ODelete "a"; OSetWithNotExist "k" 9; OGet "k"])
        (MkWorld (New [4] tt) tt) = Some (tt, w') /\
    Get 0 Demo.hash "k" w' = Some ((5, true), w').
Proof.
  assert (H : Forall (fun o => ~ clobbers (St:=unit) (Err:=string) "k" o)
                     [OSet "b" 2; ODelete "a"; OSetWithNotExist "k" 9;
                      OGet "k"]).
  { repeat constructor; simpl; try discriminate; tauto. }
  split; [exact H|].
  exact (Set_then_Get 0 Demo.hash Demo.order Demo_order_perm
           [4] tt tt [OSet "a" 1] _ "k" 5 H).
Defined.

(** C2 on the instance: ["k"] is absent from a new map. *)
Lemma SetWithNotExist_spec_witness :
  wf Demo.hash (New (V:=Z) [4] tt) /\
  mlookup Demo.hash (New (V:=Z) [4] tt) "k" = None /\
  exists w',
    SetWithNotExist 0 Demo.hash "k" 1 (MkWorld (New [4] tt) tt)
      = Some ((1, true), w') /\
    SetWithNotExist 0 Demo.hash "k" 2 w' = Some ((1, false), w') /\
    Get 0 Demo.hash "k" w' = Some ((1, true), w').
Proof.
  split; [apply wf_New|]. split; [reflexivity|].
  destruct (SetWithNotExist_spec 0 Demo.hash (MkWorld (New [4] tt) tt) "k" 1
              (wf_New Demo.hash [4] tt)) as [_ Habsent].
  destruct (Habsent eq_refl) as (w' & Hfirst & _ & _ & _ & Hsecond).
  exists w'. split; [exact Hfirst|]. exact (Hsecond 2).
Defined.

(** C3 on the instance: a request of 100 shards gives 128. *)
Lemma New_ShardCount_witness :
  ShardCount (MkWorld (New (V:=Z) [100] tt) tt)
    = Some (128, MkWorld (New [100] tt) tt).
Proof.
  destruct (New_ShardCount (V:=Z) 100 [] tt tt)
    as (c & Hrun & _ & _ & _ & _ & H100 & _).
  rewrite Hrun. by rewrite (H100 eq_refl).
Defined.

(** C4 on the instance: the traversal of [{a:1, b:5, c:10, d:15}] meets
    [b], [d], [c], [a]; the predicate deletes [b] and fails on [d].
    [Prune] returns one deletion, no retention and the error; [c] and
    [a], in the later shard, are not visited, and [b] stays deleted. *)
Lemma Prune_stops_at_error_witness :
  wf Demo.hash Demo.four /\
  visit_order Demo.order Demo.four
    = [("b", 5)] ++ ("d", 15) :: [("c", 10); ("a", 1)] /\
  sweep Demo.picky [("b", 5)] 0%nat = (["b"], [], None, 1%nat) /\
  Demo.picky "d" 15 1%nat = ((false, Some "too large"%string), 2%nat) /\
  Prune Demo.order (logged Demo.picky) (MkWorld Demo.four (0%nat, []))
    = Some ((1, 0, Some "too large"%string),
            MkWorld (del_keys Demo.hash Demo.four ["b"])
                    (2%nat, [("b", 5); ("d", 15)])) /\
  mlookup Demo.hash (del_keys Demo.hash Demo.four ["b"]) "b" = None /\
  mlookup Demo.hash (del_keys Demo.hash Demo.four ["b"]) "d" = Some 15.
Proof.
  split; [exact Demo_wf_four|]. split; [reflexivity|].
  split; [reflexivity|]. split; [reflexivity|].
  destruct (Prune_stops_at_error Demo.hash Demo.order Demo_order_perm
              Demo.picky Demo.four 0%nat [] [("b", 5)] "d" 15
              [("c", 10); ("a", 1)] ["b"] [] 1%nat false
              "too large"%string 2%nat
              Demo_wf_four eq_refl eq_refl eq_refl)
    as (_ & Hlogged & _ & _ & _ & _ & Hlook).
  split; [exact Hlogged|]. split.
  - by rewrite Hlook.
  - by rewrite Hlook.
Defined.

(** C5 on the instance, the example of the documentation: with entries
    [{a:1, b:5, c:10, d:15}] and the predicate [value < 10] the result is
    [(2, 2, nil)] and what remains is [{c:10, d:15}]. *)
Lemma Prune_deletes_matching_witness :
  wf Demo.hash Demo.four /\
  contents Demo.four = {["a" := 1; "b" := 5; "c" := 10; "d" := 15]} /\
  exists m',
    Prune (Err:=string) Demo.order (pure_pred Demo.small)
          (MkWorld Demo.four tt)
      = Some ((2, 2, None), MkWorld m' tt) /\
    contents m' = {["c" := 10; "d" := 15]}.
Proof.
  split; [exact Demo_wf_four|]. split; [by vm_compute|].
  destruct (Prune_deletes_matching (Err:=string) Demo.hash Demo.order
              Demo_order_perm Demo.small Demo.four tt [] Demo_wf_four)
    as (m' & Hrun & _ & _ & _ & Hcontents & _).
  exists m'. split; [exact Hrun|]. rewrite Hcontents. by vm_compute.
Defined.

(** C6 on the instance: deleting ["d"] from [{b:5, d:15}] if its value
    is above 10. *)
Lemma DeleteIf_spec_witness :
  wf Demo.hash Demo.pair /\
  exists w',
    DeleteIf 0 Demo.hash "d" (fun value (s : unit) => (10 <? value, s))
             (MkWorld Demo.pair tt) = Some (true, w') /\
    mlookup Demo.hash (hmap w') "d" = None /\
    mlookup Demo.hash (hmap w') "b" = Some 5.
Proof.
  split; [exact Demo_wf_pair|].
  destruct (DeleteIf_spec 0 Demo.hash (MkWorld Demo.pair tt) "d"
              (fun value (s : unit) => (10 <? value, s)) Demo_wf_pair)
    as (r & w' & Hrun & _ & Hiff & Hgone & _).
  assert (Hr : r = true).
  { apply Hiff. exists 15. split; reflexivity. }
  subst r. exists w'. split; [exact Hrun|].
  destruct (Hgone eq_refl) as [Hd Hothers]. split; [exact Hd|].
  rewrite Hothers; [reflexivity|discriminate].
Defined.

(** C7 on the instance: deleting the absent key ["z"] from
    [{b:5, d:15}]. *)
Lemma Delete_spec_witness :
  wf Demo.hash Demo.pair /\
  mlookup Demo.hash Demo.pair "z" = None /\
  Delete 0 Demo.hash "z" (MkWorld Demo.pair tt)
    = Some (false, MkWorld Demo.pair tt) /\
  Len (MkWorld Demo.pair tt) = Some (2, MkWorld Demo.pair tt).
Proof.
  split; [exact Demo_wf_pair|]. split; [reflexivity|].
  destruct (Delete_spec 0 Demo.hash (MkWorld Demo.pair tt) "z" Demo_wf_pair)
    as (r & w' & n & n' & Hrun & _ & Hlen & _ & Habsent & _).
  destruct (Habsent eq_refl) as (-> & -> & _).
  split; [exact Hrun|reflexivity].
Defined.

Lemma Demo_nosy_keeps key value w :
  Demo.one_shard w ->
  exists c w1, Demo.nosy key value w = Some (c, w1) /\ Demo.one_shard w1.
Proof.
  intros [Hwf Hlen].
  assert (Hstep : forall k (w0 : @World Z unit unit),
    Demo.one_shard w0 ->
    exists r w1, Delete 0 Demo.hash k w0 = Some (r, w1) /\ Demo.one_shard w1).
  { intros k w0 [Hwf0 Hlen0]. rewrite Delete_run by apply Hwf0.
    destruct (mlookup Demo.hash (hmap w0) k).
    - eexists _, _. split; [reflexivity|]. cbn [hmap].
      split; [by apply wf_del_map|].
      unfold del_map, with_data. simpl. by rewrite length_insert.
    - by exists false, w0. }
  destruct (Hstep "b"%string w (conj Hwf Hlen)) as (r1 & w1 & H1 & Hw1).
  destruct (Hstep "d"%string w1 Hw1) as (r2 & w2 & H2 & Hw2).
  exists true, w2. unfold Demo.nosy, bind. rewrite H1, H2. by split.
Qed.

(** C8 on the instance: the visitor that deletes both keys of
    [{b:5, d:15}] at each call.  The shard is copied before the first
    call, so the visitor is still handed [d] after it has deleted it;
    the map is empty at the end, by the visitor's doing. *)
Lemma Range_spec_witness :
  Range Demo.order (logged_visitor Demo.nosy)
        (with_log (MkWorld Demo.pair tt) [])
    = Some (tt, with_log (MkWorld (New [1] tt) tt)
                         [("b", 5, true); ("d", 15, true)]) /\
  (exists lg,
      Range Demo.order (logged_visitor Demo.nosy)
            (with_log (MkWorld Demo.pair tt) [])
        = Some (tt, with_log (MkWorld (New [1] tt) tt) lg) /\
      traversal Demo.order Demo.nosy 0 1 (MkWorld Demo.pair tt) lg
                (MkWorld (New [1] tt) tt) /\
      replay Demo.nosy lg (MkWorld Demo.pair tt)
        = Some (MkWorld (New [1] tt) tt)) /\
  exists w',
    Range Demo.order Demo.nosy (MkWorld Demo.pair tt) = Some (tt, w') /\
    Demo.one_shard w'.
Proof.
  split; [reflexivity|].
  destruct (Range_spec Demo.hash Demo.order Demo_order_perm Demo.nosy
              (MkWorld Demo.pair tt)) as (Hdone & Hreturns & _).
  split.
  - destruct (Hdone (MkWorld (New [1] tt) tt) eq_refl)
      as (lg & Hlogged & Htraversal & _ & Hreplay & _).
    exists lg. split; [exact Hlogged|]. split; [exact Htraversal|].
    exact Hreplay.
  - apply (Hreturns Demo.one_shard).
    + intros w0 [_ Hlen]. exact Hlen.
    + exact Demo_nosy_keeps.
    + split; [exact Demo_wf_pair|reflexivity].
Defined.

(** C9 on the instance: a fallback for a key absent from a new map. *)
Lemma GetWithDefault_no_insert_witness :
  wf Demo.hash (New (V:=Z) [] tt) /\
  mlookup Demo.hash (New (V:=Z) [] tt) "height" = None /\
  GetWithDefault 0 Demo.hash "height" 170 (MkWorld (New [] tt) tt)
    = Some ((170, false), MkWorld (New [] tt) tt).
Proof.
  split; [apply wf_New|]. split; [reflexivity|].
  destruct (GetWithDefault_no_insert 0 Demo.hash (MkWorld (New [] tt) tt)
              "height" 170 (wf_New Demo.hash [] tt)) as [Habsent _].
  exact (proj1 (Habsent eq_refl)).
Defined.

(** C10 on the instance: the index of ["a"] in a map made without a
    hint. *)
Lemma getIndex_in_bounds_witness :
  exists i,
    getIndex Demo.hash "a" (MkWorld (New (V:=Z) [] tt) tt)
      = Some (i, MkWorld (New [] tt) tt) /\
    0 <= i < 64.
Proof.
  destruct (getIndex_in_bounds (V:=Z) Demo.hash [] tt tt "a")
    as (i & n & e & Hi & Hn & Hr & _).
  exists i. split; [exact Hi|].
  assert (Hcount : ShardCount (MkWorld (New (V:=Z) [] tt) tt)
                   = Some (64, MkWorld (New [] tt) tt)) by reflexivity.
  rewrite Hcount in Hn. injection Hn as <-. exact Hr.
Defined.

(** *** Further examples *)

(** The traversal of a shard works on the copy taken when the shard is
    reached: a visitor that deletes both keys of [{b:5, d:15}] at its
    first call is still handed the second pair. *)
Example Range_snapshot_example :
  Range Demo.order (logged_visitor Demo.nosy) (MkWorld Demo.pair (tt, []))
    = Some (tt, MkWorld (New [1] tt)
                        (tt, [("b", 5, true); ("d", 15, true)])).
Proof. reflexivity. Qed.

(** A record that leaves out [d], as a traversal of the live shard
    would give it after the visitor has deleted [d], is not a traversal
    by snapshots. *)
Example Range_snapshot_not_live w' :
  ~ traversal Demo.order Demo.nosy 0 1 (MkWorld Demo.pair tt)
              [("b", 5, true)] w'.
Proof.
  intros H.
  assert (Htrue : Forall (fun e : string * Z * bool => e.2 = true)
                         [("b"%string, 5, true)])
    by (constructor; [reflexivity|constructor]).
  destruct (traversal_first_shard Demo.order Demo.nosy 0 0
              (MkWorld Demo.pair tt) [("b", 5, true)] w'
              (MapItem {["b" := 5; "d" := 15]}) H eq_refl Htrue)
    as [rest Hrest].
  vm_compute in Hrest. discriminate Hrest.
Qed.

(** *** The further properties on the concrete instance *)

(** X1 on the instance: a new key in [{b:5, d:15}]. *)
Lemma Set_Len_witness :
  wf Demo.hash Demo.pair /\
  mlookup Demo.hash Demo.pair "z" = None /\
  exists w' n n',
    Set_ Demo.hash "z" 1 (MkWorld Demo.pair tt) = Some (tt, w') /\
    Len (MkWorld Demo.pair tt) = Some (n, MkWorld Demo.pair tt) /\
    Len w' = Some (n', w') /\
    n' = match mlookup Demo.hash Demo.pair "z" with
         | Some _ => n
         | None => n + 1
         end.
Proof.
  split; [exact Demo_wf_pair|]. split; [reflexivity|].
  destruct (Set_Len Demo.hash (MkWorld Demo.pair tt) "z" 1 Demo_wf_pair)
    as (w' & n & n' & Hset & _ & Hlen & Hlen' & Hn).
  exists w', n, n'. split; [exact Hset|]. split; [exact Hlen|].
  split; [exact Hlen'|exact Hn].
Defined.

(** X3 on the instance: clearing [{a:1, b:5, c:10, d:15}]. *)
Lemma Clear_spec_witness :
  wf Demo.hash Demo.four /\
  exists w',
    Clear (MkWorld Demo.four tt) = Some (tt, w') /\
    Len w' = Some (0, w') /\
    Get 0 Demo.hash "a" w' = Some ((0, false), w').
Proof.
  split; [exact Demo_wf_four|].
  destruct (Clear_spec 0 Demo.hash (MkWorld Demo.four tt) Demo_wf_four)
    as (w' & Hclear & _ & _ & Hlen & _ & Hget & _).
  exists w'. split; [exact Hclear|]. split; [exact Hlen|exact (Hget "a")].
Defined.

(** X5 on the instance: writing ["b"] twice in [{b:5, d:15}]. *)
Lemma Set_overwrites_witness :
  wf Demo.hash Demo.pair /\
  exists w2,
    bind (Set_ Demo.hash "b" 1) (fun _ => Set_ Demo.hash "b" 2)
         (MkWorld Demo.pair tt) = Some (tt, w2) /\
    Set_ Demo.hash "b" 2 (MkWorld Demo.pair tt) = Some (tt, w2) /\
    Get 0 Demo.hash "b" w2 = Some ((2, true), w2).
Proof.
  split; [exact Demo_wf_pair|].
  destruct (Set_overwrites 0 Demo.hash (MkWorld Demo.pair tt) "b" 1 2
              Demo_wf_pair) as (w2 & Htwice & Honce & Hget & _).
  exists w2. split; [exact Htwice|]. split; [exact Honce|exact Hget].
Defined.

(** X7 on the instance: a request of 100 shards. *)
Lemma trueShards_bounds_witness :
  1 <= 100 <= 65536 /\ 100 <= trueShards 100 < 2 * 100.
Proof.
  assert (H : 1 <= 100 <= 65536) by lia.
  split; [exact H|exact (trueShards_bounds 100 H)].
Defined.

(** X8 on the instance: clearing and writing [{b:5, d:15}]. *)
Lemma routing_is_stable_witness :
  wf Demo.hash Demo.pair /\
  exists w' i n,
    run (Err:=string) 0 Demo.hash Demo.order
        [OClear; OSet "q" 3; ODelete "b"] (MkWorld Demo.pair tt)
      = Some (tt, w') /\
    getIndex Demo.hash "q" (MkWorld Demo.pair tt)
      = Some (i, MkWorld Demo.pair tt) /\
    getIndex Demo.hash "q" w' = Some (i, w') /\
    ShardCount (MkWorld Demo.pair tt) = Some (n, MkWorld Demo.pair tt) /\
    ShardCount w' = Some (n, w').
Proof.
  split; [exact Demo_wf_pair|].
  exact (routing_is_stable 0 Demo.hash Demo.order Demo_order_perm
           [OClear; OSet "q" 3; ODelete "b"] (MkWorld Demo.pair tt) "q"
           Demo_wf_pair).
Defined.

(** X9 on the instance: the predicate that fails on [d] in
    [{a:1, b:5, c:10, d:15}]. *)
Lemma Prune_counts_witness :
  wf Demo.hash Demo.four /\
  exists delNum nowNum err m' s' total,
    Prune Demo.order Demo.picky (MkWorld Demo.four 0%nat)
      = Some ((delNum, nowNum, err), MkWorld m' s') /\
    Len (MkWorld Demo.four 0%nat) = Some (total, MkWorld Demo.four 0%nat) /\
    Len (MkWorld m' s') = Some (total - delNum, MkWorld m' s') /\
    delNum + nowNum <= total.
Proof.
  split; [exact Demo_wf_four|].
  destruct (Prune_counts Demo.hash Demo.order Demo_order_perm Demo.picky
              Demo.four 0%nat Demo_wf_four)
    as (d & n & e & m' & s' & total & Hrun & _ & Hlen & Hlen' & _ & _ & Hle & _).
  exists d, n, e, m', s', total.
  split; [exact Hrun|]. split; [exact Hlen|]. split; [exact Hlen'|exact Hle].
Defined.

(** X10 on the instance: deleting everything from, and nothing from,
    [{a:1, b:5, c:10, d:15}]. *)
Lemma Prune_all_or_nothing_witness :
  wf Demo.hash Demo.four /\
  (exists m',
      Prune (Err:=string) Demo.order (pure_pred (fun _ _ => true))
            (MkWorld Demo.four tt)
        = Some ((Z.of_nat (size (contents Demo.four)), 0, None),
                MkWorld m' tt) /\
      contents m' = ∅) /\
  Prune (Err:=string) Demo.order (pure_pred (fun _ _ => false))
        (MkWorld Demo.four tt)
    = Some ((0, Z.of_nat (size (contents Demo.four)), None),
            MkWorld Demo.four tt).
Proof.
  split; [exact Demo_wf_four|].
  destruct (Prune_all_or_nothing (Err:=string) Demo.hash Demo.order
              Demo_order_perm Demo.four tt Demo_wf_four)
    as [(m' & Hall & _ & Hempty) Hnone].
  split; [|exact Hnone]. exists m'. split; [exact Hall|exact Hempty].
Defined.

(** X11 on the instance: the visitor that never stops, on
    [{a:1, b:5, c:10, d:15}]. *)
Lemma Range_visits_everything_witness :
  wf Demo.hash Demo.four /\
  (forall key value w,
      exists s', Demo.tally key value w = Some (true, MkWorld (hmap w) s')) /\
  exists s' lg,
    Range Demo.order (logged_visitor Demo.tally)
          (MkWorld Demo.four (0%nat, []))
      = Some (tt, MkWorld Demo.four (s', lg)) /\
    lg.*1 ≡ₚ map_to_list (contents Demo.four) /\
    Len (MkWorld Demo.four 0%nat)
      = Some (Z.of_nat (length lg), MkWorld Demo.four 0%nat).
Proof.
  assert (Htrue : forall key value w,
             exists s', Demo.tally key value w
                        = Some (true, MkWorld (hmap w) s')).
  { intros key value w. exists (S (caller w)). reflexivity. }
  split; [exact Demo_wf_four|]. split; [exact Htrue|].
  exact (Range_visits_everything Demo.hash Demo.order Demo_order_perm
           Demo.tally Demo.four 0%nat Demo_wf_four Htrue).
Defined.

(** X12 on the instance: the visitor that deletes both keys of
    [{b:5, d:15}] while [Range] runs. *)
Lemma Range_keeps_invariant_witness :
  (forall w0, Demo.one_shard w0 -> length (datas (hmap w0)) = 1%nat) /\
  (forall key value w0,
      Demo.one_shard w0 ->
      exists c w1, Demo.nosy key value w0 = Some (c, w1) /\ Demo.one_shard w1) /\
  Demo.one_shard (MkWorld Demo.pair tt) /\
  exists w',
    Range Demo.order Demo.nosy (MkWorld Demo.pair tt) = Some (tt, w') /\
    Demo.one_shard w'.
Proof.
  assert (Hlen : forall w0, Demo.one_shard w0 ->
                            length (datas (hmap w0)) = 1%nat)
    by (intros w0 [_ H]; exact H).
  assert (Hstart : Demo.one_shard (MkWorld Demo.pair tt))
    by (split; [exact Demo_wf_pair|reflexivity]).
  split; [exact Hlen|]. split; [exact Demo_nosy_keeps|].
  split; [exact Hstart|].
  exact (Range_keeps_invariant Demo.order Demo.nosy Demo.one_shard 1%nat
           (MkWorld Demo.pair tt) Hlen Demo_nosy_keeps Hstart).
Defined.

(** X13 on the instance: ["z"] written to and deleted from
    [{b:5, d:15}]. *)
Lemma Set_Delete_restores_witness :
  wf Demo.hash Demo.pair /\
  mlookup Demo.hash Demo.pair "z" = None /\
  bind (Set_ Demo.hash "z" 1) (fun _ => Delete 0 Demo.hash "z")
       (MkWorld Demo.pair tt) = Some (true, MkWorld Demo.pair tt).
Proof.
  split; [exact Demo_wf_pair|]. split; [reflexivity|].
  exact (Set_Delete_restores 0 Demo.hash (MkWorld Demo.pair tt) "z" 1
           Demo_wf_pair eq_refl).
Defined.

(** X14 on the instance. *)
Lemma SetWithNotExist_as_Get_Set_witness :
  wf Demo.hash Demo.pair /\
  SetWithNotExist 0 Demo.hash "z" 1 (MkWorld Demo.pair tt) =
    bind (Get 0 Demo.hash "z")
         (fun r => if r.2 then ret (r.1, false)
                   else bind (Set_ Demo.hash "z" 1) (fun _ => ret (1, true)))
         (MkWorld Demo.pair tt).
Proof.
  split; [exact Demo_wf_pair|].
  exact (SetWithNotExist_as_Get_Set 0 Demo.hash (MkWorld Demo.pair tt) "z" 1
           Demo_wf_pair).
Defined.

(** X15 on the instance: the earlier [Set] with its flag on the key
    ["b"] of [{b:5, d:15}]. *)
Lemma Legacy_Set_spec_witness :
  wf Demo.hash Demo.pair /\
  mlookup Demo.hash Demo.pair "b" = Some 5 /\
  Legacy.Set_ 0 Demo.hash "b" 9 [true] (MkWorld Demo.pair tt)
    = Some (5, MkWorld Demo.pair tt).
Proof.
  split; [exact Demo_wf_pair|]. split; [reflexivity|].
  destruct (Legacy_Set_spec 0 Demo.hash (MkWorld Demo.pair tt) "b" 9 []
              Demo_wf_pair) as (_ & Hpresent & _).
  exact (Hpresent 5 eq_refl).
Defined.

(** X16 on the instance: the earlier [Get] with a fallback on a key
    absent from [{b:5, d:15}]. *)
Lemma Legacy_Get_spec_witness :
  wf Demo.hash Demo.pair /\
  mlookup Demo.hash Demo.pair "z" = None /\
  Legacy.Get 0 Demo.hash "z" [170] (MkWorld Demo.pair tt)
    = Some ((170, false), MkWorld Demo.pair tt).
Proof.
  split; [exact Demo_wf_pair|]. split; [reflexivity|].
  destruct (Legacy_Get_spec 0 Demo.hash (MkWorld Demo.pair tt) "z"
              Demo_wf_pair) as [Habsent _].
  exact (proj2 (Habsent eq_refl) 170 []).
Defined.

(** X18 on the instance: all entries of [{a:1, b:5, c:10, d:15}]. *)
Lemma Legacy_GetAllMaps_spec_witness :
  wf Demo.hash Demo.four /\
  exists all,
    Legacy.GetAllMaps (MkWorld Demo.four tt)
      = Some (all, MkWorld Demo.four tt) /\
    all = contents Demo.four /\
    Len (MkWorld Demo.four tt)
      = Some (Z.of_nat (size all), MkWorld Demo.four tt).
Proof.
  split; [exact Demo_wf_four|].
  destruct (Legacy_GetAllMaps_spec 0 Demo.hash (MkWorld Demo.four tt)
              Demo_wf_four) as (all & Hrun & Hall & _ & Hlen).
  exists all. split; [exact Hrun|]. split; [exact Hall|exact Hlen].
Defined.
